(** * Heartbeat change tracking (api/v1/helpers/verbs/heartbeatUtils.js)

    A shallow embedding of the module that records, for every collector,
    the generators added, deleted and updated since that collector's last
    heartbeat.  The module talks to Redis through a client; here the client
    is a state transformer over the Redis data set, every request it issues
    is logged, and a request may fail (the store being unavailable), in
    which case its promise is rejected and the data set is left alone.

    Requests take effect in the order in which they are issued, and a call
    is followed until its promise chain has settled: nothing else touches
    the data set in between.  Calls that overlap are not modelled. *)

From stdpp Require Import gmap strings list fin_maps pretty.

#[local] Set Warnings "-clear-no-such-hyp".

(** ** JavaScript values held by [change] and [undoChange] *)

Inductive jsval : Type :=
  | JUndefined
  | JNum (n : Z)
  | JStr (s : string).

#[global] Instance jsval_eq_dec : EqDecision jsval.
Proof. solve_decision. Defined.

(** [a === b] on the values above. *)
Definition strict_eq (a b : jsval) : bool := bool_decide (a = b).

Definition ADDED : jsval := JStr "added".
Definition DELETED : jsval := JStr "deleted".
Definition UPDATED : jsval := JStr "updated".
Definition NOCHANGE : jsval := JNum 0.

(** ** The Redis side: commands, replies, data set *)

Inductive command : Type :=
  | SMEMBERS (key : string)
  | SREM (key member : string)
  | SADD (key member : string)
  | DEL (keys : list string).

(** What the client sends in one go: a single command, or a MULTI/EXEC
    batch. *)
Inductive request : Type :=
  | Single (c : command)
  | Multi (cs : list command).

Inductive reply : Type :=
  | RInt (n : nat)
  | RArray (members : list string).

#[global] Instance command_eq_dec : EqDecision command.
Proof. solve_decision. Defined.

#[global] Instance request_eq_dec : EqDecision request.
Proof. solve_decision. Defined.

(** A key that holds no set is absent from the map; Redis drops a set
    key when its last member is removed. *)
Record redis : Type := mkRedis {
  db : gmap string (gset string);
  issued : list request          (* most recent request first *)
}.

Definition smembers (d : gmap string (gset string)) (key : string) : gset string :=
  default ∅ (d !! key).

Definition exec_command (c : command) (d : gmap string (gset string))
  : gmap string (gset string) * reply :=
  match c with
  | SMEMBERS key => (d, RArray (elements (smembers d key)))
  | SREM key member =>
      let s := smembers d key in
      let s' := s ∖ {[member]} in
      (if decide (s' = ∅) then delete key d else <[key := s']> d,
       RInt (if decide (member ∈ s) then 1 else 0))
  | SADD key member =>
      let s := smembers d key in
      (<[key := {[member]} ∪ s]> d,
       RInt (if decide (member ∈ s) then 0 else 1))
  | DEL keys =>
      (foldr delete d keys,
       RInt (length (filter (λ k, is_Some (d !! k)) keys)))
  end.

Fixpoint exec_batch (cs : list command) (d : gmap string (gset string))
  : gmap string (gset string) * list reply :=
  match cs with
  | [] => (d, [])
  | c :: cs' =>
      let '(d1, r) := exec_command c d in
      let '(d2, rs) := exec_batch cs' d1 in
      (d2, r :: rs)
  end.

(** ** Promises, as the client settles them *)

Inductive promise (A : Type) : Type :=
  | Resolved (a : A)
  | Rejected.
Arguments Resolved {A} a.
Arguments Rejected {A}.

(** An action of the module on the Redis client. *)
Definition client (A : Type) : Type := redis → redis * A.

Definition Promise_resolve {A} (a : A) : client (promise A) :=
  λ st, (st, Resolved a).

(** [Promise.all]: rejected as soon as one member is. *)
Fixpoint Promise_all {A} (ps : list (promise A)) : promise (list A) :=
  match ps with
  | [] => Resolved []
  | Resolved a :: ps' =>
      match Promise_all ps' with
      | Resolved l => Resolved (a :: l)
      | Rejected => Rejected
      end
  | Rejected :: _ => Rejected
  end.

(** [p.then(f)] for a pure callback and for one that acts on the client. *)
Definition then_pure {A B} (p : promise A) (f : A → B) : promise B :=
  match p with
  | Resolved a => Resolved (f a)
  | Rejected => Rejected
  end.

Definition then_do {A B} (p : promise A) (f : A → client (promise B))
  : client (promise B) :=
  match p with
  | Resolved a => f a
  | Rejected => λ st, (st, Rejected)
  end.

Section Client.

(** Whether the store fails the request, given what was issued before. *)
Variable unavailable : list request → request → bool.

Definition send (c : command) : client (promise reply) :=
  λ st,
    let rq := Single c in
    if unavailable (issued st) rq
    then (mkRedis (db st) (rq :: issued st), Rejected)
    else
      let '(d, r) := exec_command c (db st) in
      (mkRedis d (rq :: issued st), Resolved r).

Definition multi_exec (cs : list command) : client (promise (list reply)) :=
  λ st,
    let rq := Multi cs in
    if unavailable (issued st) rq
    then (mkRedis (db st) (rq :: issued st), Rejected)
    else
      let '(d, rs) := exec_batch cs (db st) in
      (mkRedis d (rq :: issued st), Resolved rs).


(** ** Arrays *)

(** [l.includes(x)] *)
Definition includes (l : list string) (x : string) : bool := bool_decide (x ∈ l).

(** [Array.from(new Set(l))]: every element is inserted in turn, and an
    insertion of a member already present changes nothing. *)
Definition Array_from_Set (l : list string) : list string :=
  fold_left (λ acc x, if includes acc x then acc else acc ++ [x]) l [].

(** [l.map(f)] for a callback that acts on the client. *)
Fixpoint map_client {A B} (f : A → client B) (l : list A) : client (list B) :=
  match l with
  | [] => λ st, (st, [])
  | a :: l' =>
      λ st,
        let '(st1, b) := f a st in
        let '(st2, bs) := map_client f l' st1 in
        (st2, b :: bs)
  end.

(** [l.forEach((x, i) => ...)] for a callback that acts on the client and
    on a local variable of type [L]; [forEach_from] starts counting at
    [i]. *)
Fixpoint forEach_from {A L} (f : A → nat → L → client L) (l : list A)
    (i : nat) (s : L) : client L :=
  match l with
  | [] => λ st, (st, s)
  | a :: l' =>
      λ st,
        let '(st1, s1) := f a i s st in
        forEach_from f l' (S i) s1 st1
  end.

Definition forEach {A L} (f : A → nat → L → client L) (l : list A) (s : L)
  : client L :=
  forEach_from f l 0 s.

(** ** The module *)

(** A template literal converts what it interpolates to a string. *)
Definition js_to_string (v : jsval) : string :=
  match v with
  | JUndefined => "undefined"
  | JNum n => pretty n
  | JStr s => s
  end.

Definition getKey (collectorName : string) (changeType : jsval) : string :=
  "heartbeat::generatorChanges::" +:+ collectorName +:+ "::"
    +:+ js_to_string changeType.

Record changedIds : Type := mkChangedIds {
  added : list string;
  deleted : list string;
  updated : list string
}.

(** [replies[i]], read as an array of members.  A batch of three SMEMBERS
    is answered by three arrays; nothing else reaches this function. *)
Definition reply_members (replies : list reply) (i : nat) : list string :=
  match replies !! i with
  | Some (RArray l) => l
  | _ => []
  end.

Definition getChangedIds (collectorName : string) : client (promise changedIds) :=
  λ st,
    let '(st1, p) :=
      multi_exec [SMEMBERS (getKey collectorName ADDED);
                  SMEMBERS (getKey collectorName DELETED);
                  SMEMBERS (getKey collectorName UPDATED)] st in
    (st1, then_pure p (λ replies,
       {| added := reply_members replies 0;
          deleted := reply_members replies 1;
          updated := reply_members replies 2 |})).

(** The promises below resolve to the reply of Redis, or to [undefined]
    ([None]) when nothing was sent. *)
Definition removeFromSet (collectorName : string) (change : jsval)
    (genId : string) : client (promise (option reply)) :=
  if strict_eq change ADDED || strict_eq change DELETED
     || strict_eq change UPDATED
  then
    let key := getKey collectorName change in
    λ st, let '(st1, p) := send (SREM key genId) st in (st1, then_pure p Some)
  else Promise_resolve None.

Definition addToSet (collectorName : string) (change : jsval)
    (genId : string) : client (promise (option reply)) :=
  if strict_eq change ADDED || strict_eq change DELETED
     || strict_eq change UPDATED
  then
    let key := getKey collectorName change in
    λ st, let '(st1, p) := send (SADD key genId) st in (st1, then_pure p Some)
  else Promise_resolve None.

Definition resetChanges (collectorName : string) : client (promise reply) :=
  let addedKey := getKey collectorName ADDED in
  let deletedKey := getKey collectorName DELETED in
  let updatedKey := getKey collectorName UPDATED in
  send (DEL [addedKey; deletedKey; updatedKey]).

Record generator : Type := mkGenerator { id : string }.

(** The pair [(undoChange, change)] the callback of [forEach] arrives at
    before it updates Redis (lines 120 to 149); [change] is assigned
    several times there, once per [let] here. *)
Definition determineChange (inOld inNew alreadyAdded alreadyDeleted
    alreadyUpdated : bool) : jsval * jsval :=
  (* determine the change type *)
  let change := JUndefined in
  let change := if inOld && negb inNew then DELETED else change in
  let change := if negb inOld && inNew then ADDED else change in
  let change := if inOld && inNew then UPDATED else change in
  let alreadyChanged := alreadyAdded || alreadyDeleted || alreadyUpdated in
  (* account for previous changes *)
  let undoChange := JUndefined in
  if alreadyChanged then
    if alreadyAdded && strict_eq change DELETED then (ADDED, NOCHANGE)
    else if alreadyDeleted && strict_eq change ADDED then (DELETED, UPDATED)
    else if alreadyUpdated && strict_eq change DELETED then (UPDATED, DELETED)
    else (undoChange, NOCHANGE)
  else (undoChange, change).

(** The callback of [collectorChanges.forEach]; [promises] is the array it
    pushes to.  [allCollectors[i]] is always defined there (there is one
    reply per collector); were it [undefined], no test of the callback
    would hold and both helpers would resolve without sending. *)
Definition trackCollector (genId : string)
    (oldCollectors newCollectors allCollectors : list string)
    (changedIds : changedIds) (i : nat)
    (promises : list (promise (option reply)))
  : client (list (promise (option reply))) :=
  match allCollectors !! i with
  | Some collectorName =>
      let inOld := includes oldCollectors collectorName in
      let inNew := includes newCollectors collectorName in
      (* has this generator already been changed since the last heartbeat *)
      let alreadyAdded := includes (added changedIds) genId in
      let alreadyDeleted := includes (deleted changedIds) genId in
      let alreadyUpdated := includes (updated changedIds) genId in
      let '(undoChange, change) :=
        determineChange inOld inNew alreadyAdded alreadyDeleted
          alreadyUpdated in
      (* update redis *)
      λ st,
        let '(st1, p1) := removeFromSet collectorName undoChange genId st in
        let promises := promises ++ [p1] in
        let '(st2, p2) := addToSet collectorName change genId st1 in
        (st2, promises ++ [p2])
  | None =>
      λ st, (st, promises ++ [Resolved None; Resolved None])
  end.

(** The promise chain that [trackGeneratorChanges] starts. *)
Definition trackGeneratorChanges_chain (generator : generator)
    (oldCollectors newCollectors : list string)
  : client (promise (list (option reply))) :=
  let genId := id generator in
  let allCollectors := Array_from_Set (oldCollectors ++ newCollectors) in
  λ st,
    let '(st1, reads) := map_client getChangedIds allCollectors st in
    then_do (Promise_all reads) (λ collectorChanges st,
      let '(st2, promises) :=
        forEach (trackCollector genId oldCollectors newCollectors allCollectors)
          collectorChanges [] st in
      (st2, Promise_all promises)) st1.

(** The function has no [return]: its caller receives [undefined], and the
    chain settles on its own.  The state given back is the one the chain
    leaves when it has settled. *)
Definition trackGeneratorChanges (generator : generator)
    (oldCollectors newCollectors : list string) : client jsval :=
  λ st,
    let '(st1, _) :=
      trackGeneratorChanges_chain generator oldCollectors newCollectors st in
    (st1, JUndefined).

End Client.

(** ** Vocabulary of the properties *)

(** A store that never fails. *)
Definition reliable : list request → request → bool := λ _ _, false.


(** The three change types that name a set. *)
Definition is_kind (change : jsval) : bool :=
  strict_eq change ADDED || strict_eq change DELETED || strict_eq change UPDATED.

(** The three pending sets of a collector. *)
Definition pending (st : redis) (collectorName : string) (change : jsval)
  : gset string :=
  smembers (db st) (getKey collectorName change).

(** Whether [g] is pending for collector [c] with change type [k]. *)
Definition is_pending (st : redis) (c : string) (k : jsval) (g : string) : bool :=
  bool_decide (g ∈ pending st c k).

(** The id [g] is in at most one of the three sets of collector [c]. *)
Definition at_most_one (st : redis) (c g : string) : Prop :=
  ¬ (g ∈ pending st c ADDED ∧ g ∈ pending st c DELETED)
  ∧ ¬ (g ∈ pending st c ADDED ∧ g ∈ pending st c UPDATED)
  ∧ ¬ (g ∈ pending st c DELETED ∧ g ∈ pending st c UPDATED).

(** The request [getChangedIds] sends for collector [c]. *)
Definition read_request (c : string) : request :=
  Multi [SMEMBERS (getKey c ADDED); SMEMBERS (getKey c DELETED);
         SMEMBERS (getKey c UPDATED)].

(** What [getChangedIds] resolves to on the data set [d]. *)
Definition snapshot (d : gmap string (gset string)) (c : string) : changedIds :=
  {| added := elements (smembers d (getKey c ADDED));
     deleted := elements (smembers d (getKey c DELETED));
     updated := elements (smembers d (getKey c UPDATED)) |}.

Definition no_changes : changedIds :=
  {| added := []; deleted := []; updated := [] |}.

(** The writes the callback of [forEach] sends for collector [c] after
    reading [ch], oldest first. *)
Definition writes_for (genId : string) (old new : list string) (c : string)
    (ch : changedIds) : list request :=
  let uc := determineChange (includes old c) (includes new c)
              (includes (added ch) genId) (includes (deleted ch) genId)
              (includes (updated ch) genId) in
  ((if is_kind uc.1 then [Single (SREM (getKey c uc.1) genId)] else [])
   ++ (if is_kind uc.2 then [Single (SADD (getKey c uc.2) genId)] else []))%list.

Definition empty_redis : redis := mkRedis ∅ [].

(** A data set in which generator e1 is pending as updated for
    collector A. *)
Definition updated_redis : redis :=
  mkRedis {[ getKey "A" UPDATED := {[ "e1" ]} ]} [].

Definition run {A} (m : client A) (st : redis) : redis := fst (m st).

(** A data set in which generator e1 is pending as added for
    collector A. *)
Definition added_redis : redis :=
  mkRedis {[ getKey "A" ADDED := {[ "e1" ]} ]} [].

(** A store that rejects every SREM, and nothing else. *)
Definition rejects_srem : list request → request → bool :=
  λ _ rq, match rq with Single (SREM _ _) => true | _ => false end.

(** A store that rejects the read of collector B, and nothing else. *)
Definition rejects_read_of_B : list request → request → bool :=
  λ _ rq, bool_decide (rq = read_request "B").

(** The calls made as the collectors of a generator go from [cur] through
    the successive lists of [nexts], on a store that never fails: every
    call is given the list before and the list after the update. *)
Fixpoint track_history (gen : generator) (cur : list string)
    (nexts : list (list string)) (st : redis) : redis :=
  match nexts with
  | [] => st
  | next :: nexts' =>
      track_history gen next nexts'
        (trackGeneratorChanges reliable gen cur next st).1
  end.

(** What the module exports, as actions on a store that never fails. *)
Inductive action : Type :=
  | Track (gen : generator) (old new : list string)
  | Read (c : string)
  | Reset (c : string).

Definition perform (a : action) (st : redis) : redis :=
  match a with
  | Track gen old new => (trackGeneratorChanges reliable gen old new st).1
  | Read c => (getChangedIds reliable c st).1
  | Reset c => (resetChanges reliable c st).1
  end.

Definition perform_all (acts : list action) (st : redis) : redis :=
  fold_left (λ st a, perform a st) acts st.

(** Whether the store rejects one of the reads of the collectors [cs],
    sent in turn after the requests [h] (most recent first). *)
Fixpoint some_read_rejected (unavailable : list request → request → bool)
    (h : list request) (cs : list string) : bool :=
  match cs with
  | [] => false
  | c :: cs' =>
      unavailable h (read_request c)
      || some_read_rejected unavailable (read_request c :: h) cs'
  end.

(** The three keys of a collector, and the keys a request names. *)
Definition keys_of (c : string) : list string :=
  [getKey c ADDED; getKey c DELETED; getKey c UPDATED].

Definition command_keys (cmd : command) : list string :=
  match cmd with
  | SMEMBERS key | SREM key _ | SADD key _ => [key]
  | DEL keys => keys
  end.

Definition request_keys (rq : request) : list string :=
  match rq with
  | Single cmd => command_keys cmd
  | Multi cs => concat (command_keys <$> cs)
  end.

(** Whether the request [rq] names one of the keys of collector [c]. *)
Definition concerns (c : string) (rq : request) : bool :=
  existsb (λ key, bool_decide (key ∈ keys_of c)) (request_keys rq).

(** * Properties *)

(** ** Keys *)

Lemma is_kind_cases change :
  is_kind change = true ↔ change = ADDED ∨ change = DELETED ∨ change = UPDATED.
Proof.
  unfold is_kind, strict_eq.
  rewrite !orb_true_iff, !bool_decide_eq_true. tauto.
Qed.

Lemma list_ascii_of_string_app (s1 s2 : string) :
  String.list_ascii_of_string (s1 +:+ s2)
  = (String.list_ascii_of_string s1 ++ String.list_ascii_of_string s2)%list.
Proof.
  induction s1 as [|a s1 IH]; [done|].
  change (String a s1 +:+ s2) with (String a (s1 +:+ s2)).
  cbn [String.list_ascii_of_string]. by rewrite IH.
Qed.

Lemma list_ascii_of_string_inj (s1 s2 : string) :
  String.list_ascii_of_string s1 = String.list_ascii_of_string s2 → s1 = s2.
Proof.
  intros H. rewrite <- (String.string_of_list_ascii_of_string s1),
    <- (String.string_of_list_ascii_of_string s2). by rewrite H.
Qed.

(** Distinct pairs of a collector and a change type have distinct keys. *)
Lemma getKey_inj c1 c2 k1 k2 :
  is_kind k1 = true → is_kind k2 = true →
  getKey c1 k1 = getKey c2 k2 → c1 = c2 ∧ k1 = k2.
Proof.
  intros Hk1%is_kind_cases Hk2%is_kind_cases Heq.
  unfold getKey in Heq. apply (inj (String.app _)) in Heq.
  apply (f_equal String.list_ascii_of_string) in Heq.
  rewrite !list_ascii_of_string_app in Heq.
  destruct Hk1 as [->|[->| ->]], Hk2 as [->|[->| ->]]; cbn in Heq;
    try (apply app_inv_tail in Heq; apply list_ascii_of_string_inj in Heq;
         by subst);
    apply (f_equal (@rev _)) in Heq; rewrite !rev_app_distr in Heq;
    cbn in Heq; discriminate.
Qed.

Lemma getKey_kind_ne c k1 k2 :
  is_kind k1 = true → is_kind k2 = true → k1 ≠ k2 → getKey c k1 ≠ getKey c k2.
Proof. intros ??? [_ ?]%getKey_inj; done. Qed.

Lemma getKey_collector_ne c1 c2 k1 k2 :
  is_kind k1 = true → is_kind k2 = true → c1 ≠ c2 → getKey c1 k1 ≠ getKey c2 k2.
Proof. intros ??? [? _]%getKey_inj; done. Qed.

(** ** The data set under single commands *)

Lemma smembers_srem d key member key' :
  smembers (exec_command (SREM key member) d).1 key'
  = if decide (key = key') then smembers d key ∖ {[member]} else smembers d key'.
Proof.
  cbn. unfold smembers at 1.
  destruct (decide (smembers d key ∖ {[member]} = ∅)) as [He|He];
    destruct (decide (key = key')) as [->|Hne].
  - by rewrite lookup_delete_eq, He.
  - by rewrite lookup_delete_ne.
  - by rewrite lookup_insert_eq.
  - by rewrite lookup_insert_ne.
Qed.

Lemma smembers_sadd d key member key' :
  smembers (exec_command (SADD key member) d).1 key'
  = if decide (key = key') then {[member]} ∪ smembers d key else smembers d key'.
Proof.
  cbn. unfold smembers at 1.
  destruct (decide (key = key')) as [->|Hne].
  - by rewrite lookup_insert_eq.
  - by rewrite lookup_insert_ne.
Qed.

Lemma smembers_del d keys key' :
  smembers (exec_command (DEL keys) d).1 key'
  = if decide (key' ∈ keys) then ∅ else smembers d key'.
Proof.
  cbn. unfold smembers. induction keys as [|k keys IH]; cbn.
  - by rewrite decide_False by set_solver.
  - destruct (decide (k = key')) as [->|Hne].
    + rewrite lookup_delete_eq. by rewrite decide_True by set_solver.
    + rewrite lookup_delete_ne by done. rewrite IH.
      destruct (decide (key' ∈ keys)).
      * by rewrite decide_True by set_solver.
      * by rewrite decide_False by set_solver.
Qed.

(** ** Requests *)

Section Requests.

Variable unavailable : list request → request → bool.

Lemma send_db c st :
  db (send unavailable c st).1
  = if unavailable (issued st) (Single c) then db st
    else (exec_command c (db st)).1.
Proof.
  unfold send. destruct (unavailable _ _); [done|].
  by destruct (exec_command c (db st)).
Qed.

Lemma send_issued c st :
  issued (send unavailable c st).1 = Single c :: issued st.
Proof.
  unfold send. destruct (unavailable _ _); [done|].
  by destruct (exec_command c (db st)).
Qed.

Lemma removeFromSet_kind c change g st :
  is_kind change = true →
  (removeFromSet unavailable c change g st).1
  = (send unavailable (SREM (getKey c change) g) st).1.
Proof.
  unfold removeFromSet, is_kind. intros ->.
  by destruct (send _ _ _).
Qed.

Lemma addToSet_kind c change g st :
  is_kind change = true →
  (addToSet unavailable c change g st).1
  = (send unavailable (SADD (getKey c change) g) st).1.
Proof.
  unfold addToSet, is_kind. intros ->.
  by destruct (send _ _ _).
Qed.

Lemma removeFromSet_not_kind c change g st :
  is_kind change = false →
  removeFromSet unavailable c change g st = (st, Resolved None).
Proof. unfold removeFromSet, is_kind. by intros ->. Qed.

Lemma addToSet_not_kind c change g st :
  is_kind change = false →
  addToSet unavailable c change g st = (st, Resolved None).
Proof. unfold addToSet, is_kind. by intros ->. Qed.

(** Whatever the store does with the request, [removeFromSet] and
    [addToSet] can only change the membership of [g] in the set they
    name. *)
Lemma removeFromSet_frame c change g st key g' :
  g' ≠ g ∨ (is_kind change = true → key ≠ getKey c change) →
  g' ∈ smembers (db (removeFromSet unavailable c change g st).1) key
  ↔ g' ∈ smembers (db st) key.
Proof.
  intros Hfr. destruct (is_kind change) eqn:Hk.
  - rewrite removeFromSet_kind, send_db by done.
    destruct (unavailable _ _); [done|].
    rewrite smembers_srem. case_decide; [|done].
    destruct Hfr as [?|Hfr]; [set_solver|]. by destruct Hfr.
  - by rewrite removeFromSet_not_kind.
Qed.

Lemma addToSet_frame c change g st key g' :
  g' ≠ g ∨ (is_kind change = true → key ≠ getKey c change) →
  g' ∈ smembers (db (addToSet unavailable c change g st).1) key
  ↔ g' ∈ smembers (db st) key.
Proof.
  intros Hfr. destruct (is_kind change) eqn:Hk.
  - rewrite addToSet_kind, send_db by done.
    destruct (unavailable _ _); [done|].
    rewrite smembers_sadd. case_decide; [|done].
    destruct Hfr as [?|Hfr]; [set_solver|]. by destruct Hfr.
  - by rewrite addToSet_not_kind.
Qed.

(** When the store answers, the set named loses, respectively gains,
    [g]. *)
Lemma removeFromSet_done c change g st :
  is_kind change = true →
  unavailable (issued st) (Single (SREM (getKey c change) g)) = false →
  g ∉ smembers (db (removeFromSet unavailable c change g st).1)
        (getKey c change).
Proof.
  intros Hk Hu. rewrite removeFromSet_kind, send_db, Hu by done.
  rewrite smembers_srem, decide_True by done. set_solver.
Qed.

Lemma addToSet_done c change g st :
  is_kind change = true →
  unavailable (issued st) (Single (SADD (getKey c change) g)) = false →
  g ∈ smembers (db (addToSet unavailable c change g st).1)
        (getKey c change).
Proof.
  intros Hk Hu. rewrite addToSet_kind, send_db, Hu by done.
  rewrite smembers_sadd, decide_True by done. set_solver.
Qed.

End Requests.

(** ** Reading the pending changes *)

Lemma includes_elements (s : gset string) (g : string) :
  includes (elements s) g = bool_decide (g ∈ s).
Proof. unfold includes. apply bool_decide_ext, elem_of_elements. Qed.

Lemma Promise_all_Resolved {A} (l : list A) :
  Promise_all (Resolved <$> l) = Resolved l.
Proof. induction l as [|a l IH]; [done|]. cbn. by rewrite IH. Qed.

Section Reads.

Variable unavailable : list request → request → bool.

Lemma getChangedIds_run c st :
  getChangedIds unavailable c st
  = (mkRedis (db st) (read_request c :: issued st),
     if unavailable (issued st) (read_request c) then Rejected
     else Resolved (snapshot (db st) c)).
Proof.
  unfold getChangedIds, multi_exec. fold (read_request c).
  by destruct (unavailable _ _).
Qed.

Lemma map_getChangedIds_db l st :
  db (map_client (getChangedIds unavailable) l st).1 = db st.
Proof.
  revert st. induction l as [|c l IH]; intros st; [done|].
  cbn [map_client]. rewrite getChangedIds_run.
  specialize (IH (mkRedis (db st) (read_request c :: issued st))).
  by destruct (map_client _ l _).
Qed.

Lemma map_getChangedIds_issued l st :
  issued (map_client (getChangedIds unavailable) l st).1
  = (rev (read_request <$> l) ++ issued st)%list.
Proof.
  revert st. induction l as [|c l IH]; intros st; [done|].
  cbn [map_client]. rewrite getChangedIds_run.
  specialize (IH (mkRedis (db st) (read_request c :: issued st))).
  destruct (map_client _ l _). cbn in *. rewrite IH.
  by rewrite <- app_assoc.
Qed.

(** The reads that succeed all see the data set as it was before the
    call. *)
Lemma map_getChangedIds_Resolved l st chs :
  Promise_all (map_client (getChangedIds unavailable) l st).2 = Resolved chs →
  chs = snapshot (db st) <$> l.
Proof.
  revert st chs. induction l as [|c l IH]; intros st chs.
  - cbn. by intros [= <-].
  - cbn [map_client]. rewrite getChangedIds_run.
    specialize (IH (mkRedis (db st) (read_request c :: issued st))).
    destruct (map_client _ l _) as [st2 ps]. cbn in *.
    destruct (unavailable _ _); [done|].
    destruct (Promise_all ps) as [chs'|]; [|done].
    intros [= <-]. by rewrite (IH chs').
Qed.

(** Reads that cannot fail do resolve. *)
Lemma map_getChangedIds_available l st :
  (∀ h c, c ∈ l → unavailable h (read_request c) = false) →
  Promise_all (map_client (getChangedIds unavailable) l st).2
  = Resolved (snapshot (db st) <$> l).
Proof.
  revert st. induction l as [|c l IH]; intros st Hu; [done|].
  cbn [map_client]. rewrite getChangedIds_run.
  specialize (IH (mkRedis (db st) (read_request c :: issued st))).
  destruct (map_client _ l _) as [st2 ps]. cbn in *.
  rewrite Hu by set_solver. rewrite IH; [done|].
  intros h c' ?. apply Hu. set_solver.
Qed.

End Reads.

(** ** [Array.from(new Set(...))] *)

Lemma Array_from_Set_fold (l acc : list string) :
  NoDup acc →
  let r := fold_left (λ acc x, if includes acc x then acc else (acc ++ [x])%list)
             l acc in
  NoDup r ∧ ∀ x, x ∈ r ↔ x ∈ acc ∨ x ∈ l.
Proof.
  revert acc. induction l as [|a l IH]; intros acc Hnd; cbn.
  - split; [done|]. set_solver.
  - unfold includes at 2 4. case_bool_decide as Ha.
    + destruct (IH acc Hnd) as [? Hin]. split; [done|].
      intros x. rewrite Hin. set_solver.
    + assert (NoDup (acc ++ [a])) as Hnd'.
      { apply NoDup_app. split_and!; [done| |apply NoDup_singleton].
        intros x ? ->%list_elem_of_singleton. done. }
      destruct (IH _ Hnd') as [? Hin]. split; [done|].
      intros x. rewrite Hin. set_solver.
Qed.

Lemma Array_from_Set_NoDup l : NoDup (Array_from_Set l).
Proof. apply (Array_from_Set_fold l []). constructor. Qed.

Lemma elem_of_Array_from_Set l x : x ∈ Array_from_Set l ↔ x ∈ l.
Proof.
  destruct (Array_from_Set_fold l [] (NoDup_nil_2)) as [_ H].
  unfold Array_from_Set. rewrite H. set_solver.
Qed.

(** ** One collector at a time *)

Section Track.

Variable unavailable : list request → request → bool.
Variables (genId : string) (oldCollectors newCollectors allCollectors : list string).

Local Abbreviation step :=
  (trackCollector unavailable genId oldCollectors newCollectors allCollectors).

Lemma trackCollector_state ch i ps st c :
  allCollectors !! i = Some c →
  (step ch i ps st).1
  = (addToSet unavailable c
       (determineChange (includes oldCollectors c) (includes newCollectors c)
          (includes (added ch) genId) (includes (deleted ch) genId)
          (includes (updated ch) genId)).2 genId
       (removeFromSet unavailable c
          (determineChange (includes oldCollectors c) (includes newCollectors c)
             (includes (added ch) genId) (includes (deleted ch) genId)
             (includes (updated ch) genId)).1 genId st).1).1.
Proof.
  intros Hi. unfold step, trackCollector. rewrite Hi.
  destruct (determineChange _ _ _ _ _) as [undo change]. cbn [fst snd].
  destruct (removeFromSet _ _ _ _ _) as [st1 p1]. cbn [fst].
  by destruct (addToSet _ _ _ _ _) as [st2 p2].
Qed.

Lemma trackCollector_skip ch i ps st :
  allCollectors !! i = None → (step ch i ps st).1 = st.
Proof. intros Hi. unfold step, trackCollector. by rewrite Hi. Qed.

(** The callback changes nothing but the membership of [genId] in the
    sets of the collector at index [i]. *)
Lemma trackCollector_frame ch i ps st key g' :
  g' ≠ genId
  ∨ (∀ c k, allCollectors !! i = Some c → is_kind k = true → key ≠ getKey c k) →
  g' ∈ smembers (db (step ch i ps st).1) key ↔ g' ∈ smembers (db st) key.
Proof.
  intros Hfr. destruct (allCollectors !! i) as [c|] eqn:Hi.
  - rewrite (trackCollector_state _ _ _ _ c) by done.
    rewrite addToSet_frame, removeFromSet_frame; [done|..];
      (destruct Hfr as [?|Hfr]; [by left|right; eauto]).
  - by rewrite trackCollector_skip.
Qed.

(** When the store answers the two requests about collector [c], the
    callback leaves [genId] in the set [change], and in whatever other
    set it was in except [undoChange]. *)
Lemma trackCollector_exact ch i ps st c undo change k :
  allCollectors !! i = Some c →
  (∀ h k', unavailable h (Single (SREM (getKey c k') genId)) = false) →
  (∀ h k', unavailable h (Single (SADD (getKey c k') genId)) = false) →
  determineChange (includes oldCollectors c) (includes newCollectors c)
    (includes (added ch) genId) (includes (deleted ch) genId)
    (includes (updated ch) genId) = (undo, change) →
  is_kind k = true →
  genId ∈ smembers (db (step ch i ps st).1) (getKey c k)
  ↔ change = k ∨ (genId ∈ smembers (db st) (getKey c k) ∧ undo ≠ k).
Proof.
  intros Hi Hrem Hadd Hdet Hk.
  rewrite (trackCollector_state _ _ _ _ c), Hdet by done. cbn [fst snd].
  destruct (decide (change = k)) as [->|Hck].
  { split; [by left|]. intros _. by apply addToSet_done. }
  rewrite addToSet_frame
    by (right; intros ?; apply getKey_kind_ne; done).
  destruct (decide (undo = k)) as [->|Huk].
  { split; [|by intros [?|[_ ?]]].
    intros Hin. by apply removeFromSet_done in Hin. }
  rewrite removeFromSet_frame
    by (right; intros ?; apply getKey_kind_ne; done).
  naive_solver.
Qed.

Lemma forEach_frame chs i ps st key g' :
  g' ≠ genId
  ∨ (∀ j c k, i ≤ j < i + length chs → allCollectors !! j = Some c →
       is_kind k = true → key ≠ getKey c k) →
  g' ∈ smembers (db (forEach_from step chs i ps st).1) key
  ↔ g' ∈ smembers (db st) key.
Proof.
  revert i ps st. induction chs as [|ch chs IH]; intros i ps st Hfr; [done|].
  cbn [forEach_from].
  pose proof (trackCollector_frame ch i ps st key g') as Hstep.
  destruct (step ch i ps st) as [st1 ps1]. cbn [fst] in Hstep.
  rewrite IH, Hstep; [done|..].
  - destruct Hfr as [?|Hfr]; [by left|right].
    intros c k ?. apply (Hfr i). cbn. lia. done.
  - destruct Hfr as [?|Hfr]; [by left|right].
    intros j c k ?. apply Hfr. cbn. lia.
Qed.

Lemma forEach_exact chs i ps st j c ch undo change k :
  NoDup allCollectors →
  allCollectors !! j = Some c → i ≤ j → chs !! (j - i) = Some ch →
  (∀ h k', unavailable h (Single (SREM (getKey c k') genId)) = false) →
  (∀ h k', unavailable h (Single (SADD (getKey c k') genId)) = false) →
  determineChange (includes oldCollectors c) (includes newCollectors c)
    (includes (added ch) genId) (includes (deleted ch) genId)
    (includes (updated ch) genId) = (undo, change) →
  is_kind k = true →
  genId ∈ smembers (db (forEach_from step chs i ps st).1) (getKey c k)
  ↔ change = k ∨ (genId ∈ smembers (db st) (getKey c k) ∧ undo ≠ k).
Proof.
  intros Hnd Hj Hij Hch Hrem Hadd Hdet Hk.
  revert i ps st Hij Hch.
  induction chs as [|ch0 chs IH]; intros i ps st Hij Hch; [done|].
  cbn [forEach_from].
  assert (∀ j' c' k', j' ≠ j → allCollectors !! j' = Some c' →
            is_kind k' = true → getKey c k ≠ getKey c' k') as Hother.
  { intros j' c' k' Hne Hj' Hk'. apply getKey_collector_ne; [done..|].
    intros <-. apply Hne. by eapply NoDup_lookup. }
  destruct (decide (i = j)) as [->|Hne].
  - rewrite Nat.sub_diag in Hch. injection Hch as ->.
    pose proof (trackCollector_exact ch j ps st c undo change k
                  Hj Hrem Hadd Hdet Hk) as Hstep.
    destruct (step ch j ps st) as [st1 ps1]. cbn [fst] in Hstep.
    rewrite forEach_frame; [done|right].
    intros j' c' k' ? ? ?. apply (Hother j'); [lia|done..].
  - pose proof (trackCollector_frame ch0 i ps st (getKey c k) genId) as Hstep.
    destruct (step ch0 i ps st) as [st1 ps1]. cbn [fst] in Hstep.
    rewrite IH, Hstep; [done| |lia|].
    + right. intros c' k' ??. by apply (Hother i).
    + replace (j - i) with (S (j - S i)) in Hch by lia. done.
Qed.

End Track.

(** ** The whole call *)

Section Whole.

Variable unavailable : list request → request → bool.

Lemma trackGeneratorChanges_state gen old new st :
  (trackGeneratorChanges unavailable gen old new st).1
  = (trackGeneratorChanges_chain unavailable gen old new st).1.
Proof.
  unfold trackGeneratorChanges. by destruct (trackGeneratorChanges_chain _ _ _ _ _).
Qed.


(** A call changes nothing but the membership of the generator's id in
    the sets of the collectors named in one of the two lists; this holds
    whatever the store does with the requests. *)
Lemma trackGeneratorChanges_frame gen old new st key g' :
  g' ≠ id gen
  ∨ (∀ c k, c ∈ old ∨ c ∈ new → is_kind k = true → key ≠ getKey c k) →
  g' ∈ smembers (db (trackGeneratorChanges unavailable gen old new st).1) key
  ↔ g' ∈ smembers (db st) key.
Proof.
  intros Hfr. rewrite trackGeneratorChanges_state.
  unfold trackGeneratorChanges_chain.
  pose proof (map_getChangedIds_db unavailable
                (Array_from_Set (old ++ new)) st) as Hdb.
  destruct (map_client _ _ _) as [st1 reads]. cbn [fst] in Hdb.
  destruct (Promise_all reads) as [chs|]; cbn [then_do fst];
    [|by rewrite Hdb].
  unfold forEach.
  pose proof (forEach_frame unavailable (id gen) old new
                (Array_from_Set (old ++ new)) chs 0 [] st1 key g') as Hfe.
  destruct (forEach_from _ _ _ _ _) as [st2 ps]. cbn [fst] in *.
  rewrite Hfe, Hdb; [done|].
  destruct Hfr as [?|Hfr]; [by left|right].
  intros j c k _ Hj%list_elem_of_lookup_2 Hk.
  apply Hfr; [|done].
  by rewrite elem_of_Array_from_Set, elem_of_app in Hj.
Qed.

(** When no read can fail and the store answers the requests about
    collector [c], the call leaves the generator's id in the set [change],
    and in whatever other set of [c] it was in except [undoChange], as
    [determineChange] gives them for the sets of [c] before the call. *)
Lemma trackGeneratorChanges_exact gen old new st c undo change k :
  (∀ h c', c' ∈ old ∨ c' ∈ new → unavailable h (read_request c') = false) →
  c ∈ old ∨ c ∈ new →
  (∀ h k', unavailable h (Single (SREM (getKey c k') (id gen))) = false) →
  (∀ h k', unavailable h (Single (SADD (getKey c k') (id gen))) = false) →
  determineChange (includes old c) (includes new c)
    (bool_decide (id gen ∈ pending st c ADDED))
    (bool_decide (id gen ∈ pending st c DELETED))
    (bool_decide (id gen ∈ pending st c UPDATED)) = (undo, change) →
  is_kind k = true →
  id gen ∈ pending (trackGeneratorChanges unavailable gen old new st).1 c k
  ↔ change = k ∨ (id gen ∈ pending st c k ∧ undo ≠ k).
Proof.
  intros Hreads Hc Hrem Hadd Hdet Hk. unfold pending.
  rewrite trackGeneratorChanges_state. unfold trackGeneratorChanges_chain.
  pose proof (map_getChangedIds_db unavailable
                (Array_from_Set (old ++ new)) st) as Hdb.
  pose proof (map_getChangedIds_available unavailable
                (Array_from_Set (old ++ new)) st) as Hall.
  destruct (map_client _ _ _) as [st1 reads]. cbn [fst snd] in Hdb, Hall.
  rewrite Hall; cycle 1.
  { intros h c' Hc'. apply Hreads.
    by rewrite elem_of_Array_from_Set, elem_of_app in Hc'. }
  cbn [then_do]. unfold forEach.
  assert (c ∈ Array_from_Set (old ++ new)) as [j Hj]%list_elem_of_lookup_1.
  { by rewrite elem_of_Array_from_Set, elem_of_app. }
  pose proof (forEach_exact unavailable (id gen) old new
                (Array_from_Set (old ++ new))
                (snapshot (db st) <$> Array_from_Set (old ++ new))
                0 [] st1 j c (snapshot (db st) c) undo change k
                (Array_from_Set_NoDup _) Hj) as Hfe.
  destruct (forEach_from _ _ _ _ _) as [st2 ps]. cbn [fst] in *.
  rewrite Hfe, Hdb; [done|lia| |done|done| |done].
  - rewrite Nat.sub_0_r, list_lookup_fmap, Hj. done.
  - cbn [snapshot added deleted updated]. by rewrite !includes_elements.
Qed.

End Whole.

(** On a store that never fails. *)
Lemma trackGeneratorChanges_reliable gen old new st c undo change k :
  c ∈ old ∨ c ∈ new →
  determineChange (includes old c) (includes new c)
    (bool_decide (id gen ∈ pending st c ADDED))
    (bool_decide (id gen ∈ pending st c DELETED))
    (bool_decide (id gen ∈ pending st c UPDATED)) = (undo, change) →
  is_kind k = true →
  id gen ∈ pending (trackGeneratorChanges reliable gen old new st).1 c k
  ↔ change = k ∨ (id gen ∈ pending st c k ∧ undo ≠ k).
Proof. intros. by apply trackGeneratorChanges_exact. Qed.

(** ** The pending sets after a call *)

Lemma kind_ADDED : is_kind ADDED = true.
Proof. done. Qed.
Lemma kind_DELETED : is_kind DELETED = true.
Proof. done. Qed.
Lemma kind_UPDATED : is_kind UPDATED = true.
Proof. done. Qed.

#[local] Hint Resolve kind_ADDED kind_DELETED kind_UPDATED : core.

(** The sets of a collector named in neither list, and the membership of
    every other id, are as before the call, whatever the store does. *)
Lemma pending_frame unavailable gen old new st c k g' :
  g' ≠ id gen ∨ ((c ∉ old) ∧ (c ∉ new)) →
  is_kind k = true →
  g' ∈ pending (trackGeneratorChanges unavailable gen old new st).1 c k
  ↔ g' ∈ pending st c k.
Proof.
  intros Hfr Hk. unfold pending. apply trackGeneratorChanges_frame.
  destruct Hfr as [?|[Ho Hn]]; [by left|right].
  intros c' k' Hc' Hk'. apply getKey_collector_ne; [done..|].
  intros ->. tauto.
Qed.

(** On a store that never fails, the membership of the generator's id in
    the sets of a collector named in one of the lists, as booleans. *)
Lemma is_pending_reliable gen old new st c k :
  c ∈ old ∨ c ∈ new →
  is_kind k = true →
  is_pending (trackGeneratorChanges reliable gen old new st).1 c k (id gen)
  = let uc := determineChange (includes old c) (includes new c)
                (is_pending st c ADDED (id gen))
                (is_pending st c DELETED (id gen))
                (is_pending st c UPDATED (id gen)) in
    strict_eq uc.2 k || (is_pending st c k (id gen) && negb (strict_eq uc.1 k)).
Proof.
  intros Hc Hk. cbn zeta. unfold is_pending at 1.
  destruct (determineChange _ _ _ _ _) as [undo change] eqn:Hdet.
  cbn [fst snd]. apply eq_true_iff_eq.
  rewrite bool_decide_eq_true.
  rewrite (trackGeneratorChanges_reliable gen old new st c undo change k)
    by done.
  unfold strict_eq, is_pending.
  rewrite orb_true_iff, andb_true_iff, negb_true_iff, bool_decide_eq_false,
    !bool_decide_eq_true. done.
Qed.

Lemma includes_nil c : includes [] c = false.
Proof. unfold includes. apply bool_decide_eq_false. set_solver. Qed.

Lemma includes_singleton c : includes [c] c = true.
Proof. unfold includes. apply bool_decide_eq_true. set_solver. Qed.

Lemma is_pending_false st c k g : g ∉ pending st c k → is_pending st c k g = false.
Proof. apply bool_decide_eq_false. Qed.

Lemma is_pending_true st c k g : g ∈ pending st c k → is_pending st c k g = true.
Proof. apply bool_decide_eq_true. Qed.

Lemma is_pending_false_iff st c k g : is_pending st c k g = false ↔ g ∉ pending st c k.
Proof. apply bool_decide_eq_false. Qed.

Lemma is_pending_true_iff st c k g : is_pending st c k g = true ↔ g ∈ pending st c k.
Proof. apply bool_decide_eq_true. Qed.

(** ** Compaction *)

Lemma named_in_new (C : string) : C ∈ [] ∨ C ∈ [C].
Proof. right. apply list_elem_of_singleton. done. Qed.

Lemma named_in_old (C : string) : C ∈ [C] ∨ C ∈ [].
Proof. left. apply list_elem_of_singleton. done. Qed.

(** C1: for a generator that is in none of the three sets of collector
    [C], a call that adds [C] to the generator's collectors followed by a
    call that removes it leaves the generator in none of the three sets. *)
Theorem added_then_deleted_cancels (gen : generator) (C : string) (st : redis) :
  id gen ∉ pending st C ADDED →
  id gen ∉ pending st C DELETED →
  id gen ∉ pending st C UPDATED →
  let st1 := (trackGeneratorChanges reliable gen [] [C] st).1 in
  let st2 := (trackGeneratorChanges reliable gen [C] [] st1).1 in
  (id gen ∉ pending st2 C ADDED)
  ∧ (id gen ∉ pending st2 C DELETED)
  ∧ (id gen ∉ pending st2 C UPDATED).
Proof.
  intros Ha%is_pending_false Hd%is_pending_false Hu%is_pending_false st1 st2.
  pose proof (named_in_new C) as H1. pose proof (named_in_old C) as H2.
  rewrite <- !is_pending_false_iff. subst st2.
  rewrite !(is_pending_reliable gen [C] [] st1) by done. subst st1.
  rewrite !(is_pending_reliable gen [] [C] st) by done.
  rewrite Ha, Hd, Hu, includes_nil, includes_singleton. done.
Qed.

Lemma added_then_deleted_cancels_witness :
  let gen := mkGenerator "e1" in
  let st1 := (trackGeneratorChanges reliable gen [] ["A"] empty_redis).1 in
  let st2 := (trackGeneratorChanges reliable gen ["A"] [] st1).1 in
  ("e1" ∉ pending st2 "A" ADDED)
  ∧ ("e1" ∉ pending st2 "A" DELETED)
  ∧ ("e1" ∉ pending st2 "A" UPDATED).
Proof.
  apply (added_then_deleted_cancels (mkGenerator "e1") "A" empty_redis);
    apply is_pending_false_iff; vm_compute; reflexivity.
Defined.

(** C2: for a generator that is in none of the three sets of collector
    [C], a call that removes [C] from the generator's collectors followed
    by a call that adds it back leaves the generator in the updated set of
    [C], and in neither the added nor the deleted set. *)
Theorem deleted_then_added_is_updated (gen : generator) (C : string) (st : redis) :
  id gen ∉ pending st C ADDED →
  id gen ∉ pending st C DELETED →
  id gen ∉ pending st C UPDATED →
  let st1 := (trackGeneratorChanges reliable gen [C] [] st).1 in
  let st2 := (trackGeneratorChanges reliable gen [] [C] st1).1 in
  id gen ∈ pending st2 C UPDATED
  ∧ (id gen ∉ pending st2 C ADDED)
  ∧ (id gen ∉ pending st2 C DELETED).
Proof.
  intros Ha%is_pending_false Hd%is_pending_false Hu%is_pending_false st1 st2.
  pose proof (named_in_new C) as H1. pose proof (named_in_old C) as H2.
  rewrite <- !is_pending_false_iff, <- is_pending_true_iff. subst st2.
  rewrite !(is_pending_reliable gen [] [C] st1) by done. subst st1.
  rewrite !(is_pending_reliable gen [C] [] st) by done.
  rewrite Ha, Hd, Hu, includes_nil, includes_singleton. done.
Qed.

Lemma deleted_then_added_is_updated_witness :
  let gen := mkGenerator "e1" in
  let st1 := (trackGeneratorChanges reliable gen ["A"] [] empty_redis).1 in
  let st2 := (trackGeneratorChanges reliable gen [] ["A"] st1).1 in
  "e1" ∈ pending st2 "A" UPDATED
  ∧ ("e1" ∉ pending st2 "A" ADDED)
  ∧ ("e1" ∉ pending st2 "A" DELETED).
Proof.
  apply (deleted_then_added_is_updated (mkGenerator "e1") "A" empty_redis);
    apply is_pending_false_iff; vm_compute; reflexivity.
Defined.

(** C3: for a generator that is in the updated set of collector [C] and in
    no other set of [C], a call that removes [C] from the generator's
    collectors leaves the generator in the deleted set of [C] and no
    longer in the updated set (nor in the added set). *)
Theorem updated_then_deleted_is_deleted (gen : generator) (C : string) (st : redis) :
  id gen ∈ pending st C UPDATED →
  id gen ∉ pending st C ADDED →
  id gen ∉ pending st C DELETED →
  let st1 := (trackGeneratorChanges reliable gen [C] [] st).1 in
  id gen ∈ pending st1 C DELETED
  ∧ (id gen ∉ pending st1 C UPDATED)
  ∧ (id gen ∉ pending st1 C ADDED).
Proof.
  intros Hu%is_pending_true Ha%is_pending_false Hd%is_pending_false st1.
  pose proof (named_in_old C) as H2.
  rewrite <- !is_pending_false_iff, <- is_pending_true_iff. subst st1.
  rewrite !(is_pending_reliable gen [C] [] st) by done.
  rewrite Ha, Hd, Hu, includes_nil, includes_singleton. done.
Qed.

Lemma updated_then_deleted_is_deleted_witness :
  let gen := mkGenerator "e1" in
  let st1 := (trackGeneratorChanges reliable gen ["A"] [] updated_redis).1 in
  "e1" ∈ pending st1 "A" DELETED
  ∧ ("e1" ∉ pending st1 "A" UPDATED)
  ∧ ("e1" ∉ pending st1 "A" ADDED).
Proof.
  apply (updated_then_deleted_is_deleted (mkGenerator "e1") "A" updated_redis);
    [apply is_pending_true_iff|apply is_pending_false_iff..];
    vm_compute; reflexivity.
Defined.

(** ** Mutual exclusivity *)

(** C4: whatever the generator and the two lists of collectors, an id
    that is in at most one of the three sets of a collector before a call
    is in at most one of them after it. *)
Theorem at_most_one_preserved (gen : generator) (old new : list string)
    (st : redis) (c g : string) :
  at_most_one st c g →
  at_most_one (trackGeneratorChanges reliable gen old new st).1 c g.
Proof.
  unfold at_most_one.
  destruct (decide (g = id gen ∧ (c ∈ old ∨ c ∈ new))) as [[-> Hc]|Hno].
  - rewrite <- !is_pending_true_iff.
    rewrite !(is_pending_reliable gen old new st) by done.
    destruct (includes old c), (includes new c),
      (is_pending st c ADDED (id gen)), (is_pending st c DELETED (id gen)),
      (is_pending st c UPDATED (id gen)); cbn; naive_solver.
  - assert (g ≠ id gen ∨ ((c ∉ old) ∧ (c ∉ new))) as Hfr.
    { destruct (decide (g = id gen)); [right|by left]. tauto. }
    by rewrite !(pending_frame reliable gen old new st c _ g) by done.
Qed.

Lemma at_most_one_preserved_witness :
  at_most_one
    (trackGeneratorChanges reliable (mkGenerator "e1") ["A"] [] updated_redis).1
    "A" "e1".
Proof.
  apply (at_most_one_preserved (mkGenerator "e1") ["A"] [] updated_redis).
  unfold at_most_one. rewrite <- !is_pending_true_iff.
  vm_compute. intuition discriminate.
Defined.

(** ** A call with the same collectors before and after *)

(** C5 fails as stated: with no change pending, a call whose two lists
    both name collector A puts the generator in the updated set of A. *)
Lemma same_collectors_marks_updated :
  let st := (trackGeneratorChanges reliable (mkGenerator "e1") ["A"] ["A"]
               empty_redis).1 in
  "A" ∈ ["A"]
  ∧ pending st "A" UPDATED ≠ pending empty_redis "A" UPDATED.
Proof.
  split; [apply list_elem_of_singleton; done|].
  intros H. apply (f_equal elements) in H. vm_compute in H. discriminate.
Qed.

(** C5, amended: when both lists are the same list [S], a call leaves the
    added and the deleted set of every collector of [S] as they were; it
    leaves the updated set as it was when the generator is already in one
    of the collector's three sets, and adds the generator to it
    otherwise. *)
Theorem same_collectors_effect (gen : generator) (S : list string)
    (st : redis) (c : string) :
  c ∈ S →
  let st' := (trackGeneratorChanges reliable gen S S st).1 in
  pending st' c ADDED = pending st c ADDED
  ∧ pending st' c DELETED = pending st c DELETED
  ∧ pending st' c UPDATED
    = if decide (id gen ∈ pending st c ADDED ∨ id gen ∈ pending st c DELETED
                 ∨ id gen ∈ pending st c UPDATED)
      then pending st c UPDATED
      else {[ id gen ]} ∪ pending st c UPDATED.
Proof.
  intros Hc st'.
  assert (includes S c = true) as Hinc by by apply bool_decide_eq_true.
  assert (∀ k, is_kind k = true →
            is_pending st' c k (id gen)
            = strict_eq
                (determineChange true true (is_pending st c ADDED (id gen))
                   (is_pending st c DELETED (id gen))
                   (is_pending st c UPDATED (id gen))).2 k
              || (is_pending st c k (id gen)
                  && negb (strict_eq
                    (determineChange true true (is_pending st c ADDED (id gen))
                       (is_pending st c DELETED (id gen))
                       (is_pending st c UPDATED (id gen))).1 k))) as Hgen.
  { intros k Hk. subst st'.
    rewrite (is_pending_reliable gen S S st c k) by (done || by left).
    by rewrite Hinc. }
  assert (∀ k g', g' ≠ id gen → is_kind k = true →
            g' ∈ pending st' c k ↔ g' ∈ pending st c k) as Hoth.
  { intros k g' ? ?. by apply pending_frame; [left|]. }
  clearbody st'.
  split_and!; apply set_eq; intros g'.
  - destruct (decide (g' = id gen)) as [->|Hne]; [|by apply Hoth].
    specialize (Hgen ADDED kind_ADDED). unfold is_pending in Hgen.
    revert Hgen. repeat case_bool_decide; intros Hgen; vm_compute in Hgen;
      simplify_eq; tauto.
  - destruct (decide (g' = id gen)) as [->|Hne]; [|by apply Hoth].
    specialize (Hgen DELETED kind_DELETED). unfold is_pending in Hgen.
    revert Hgen. repeat case_bool_decide; intros Hgen; vm_compute in Hgen;
      simplify_eq; tauto.
  - destruct (decide (g' = id gen)) as [->|Hne].
    + specialize (Hgen UPDATED kind_UPDATED). unfold is_pending in Hgen.
      destruct (decide (_ ∨ _)) as [Hin|Hin];
        rewrite ?elem_of_union, ?elem_of_singleton;
        revert Hgen; repeat case_bool_decide; intros Hgen;
        vm_compute in Hgen; simplify_eq; tauto.
    + destruct (decide (_ ∨ _)); rewrite ?elem_of_union, ?elem_of_singleton,
        Hoth by done; tauto.
Qed.

Lemma same_collectors_effect_witness :
  let st := (trackGeneratorChanges reliable (mkGenerator "e1") ["A"] ["A"]
               updated_redis).1 in
  pending st "A" ADDED = pending updated_redis "A" ADDED
  ∧ pending st "A" DELETED = pending updated_redis "A" DELETED
  ∧ pending st "A" UPDATED
    = if decide ("e1" ∈ pending updated_redis "A" ADDED
                 ∨ "e1" ∈ pending updated_redis "A" DELETED
                 ∨ "e1" ∈ pending updated_redis "A" UPDATED)
      then pending updated_redis "A" UPDATED
      else {[ "e1" ]} ∪ pending updated_redis "A" UPDATED.
Proof.
  apply (same_collectors_effect (mkGenerator "e1") ["A"] updated_redis "A").
  apply list_elem_of_singleton. reflexivity.
Defined.

(** ** The helpers of the store *)

(** C6: with a change that is none of the three change types, neither
    [removeFromSet] nor [addToSet] sends anything: the data set and the
    requests issued are as before, and the promise resolves. *)
Theorem other_change_is_noop (unavailable : list request → request → bool)
    (C : string) (k : jsval) (e : string) (st : redis) :
  k ≠ ADDED → k ≠ DELETED → k ≠ UPDATED →
  removeFromSet unavailable C k e st = (st, Resolved None)
  ∧ addToSet unavailable C k e st = (st, Resolved None).
Proof.
  intros Ha Hd Hu.
  assert (is_kind k = false) as Hk.
  { apply not_true_is_false. rewrite is_kind_cases. tauto. }
  split; [by apply removeFromSet_not_kind|by apply addToSet_not_kind].
Qed.

Lemma other_change_is_noop_witness :
  removeFromSet reliable "A" NOCHANGE "e1" updated_redis
    = (updated_redis, Resolved None)
  ∧ addToSet reliable "A" NOCHANGE "e1" updated_redis
    = (updated_redis, Resolved None).
Proof.
  apply (other_change_is_noop reliable "A" NOCHANGE "e1" updated_redis);
    discriminate.
Defined.

(** A collector with nothing pending reads three empty arrays. *)
Lemma getChangedIds_no_pending (C : string) (st : redis) :
  pending st C ADDED = ∅ → pending st C DELETED = ∅ →
  pending st C UPDATED = ∅ →
  (getChangedIds reliable C st).2 = Resolved no_changes.
Proof.
  unfold pending. intros Ha Hd Hu. rewrite getChangedIds_run. cbn.
  unfold snapshot. rewrite Ha, Hd, Hu. by rewrite elements_empty.
Qed.

Lemma resetChanges_pending (C : string) (k : jsval) (st : redis) :
  is_kind k = true → pending (resetChanges reliable C st).1 C k = ∅.
Proof.
  intros Hk. unfold pending, resetChanges. rewrite send_db. cbn [reliable].
  rewrite smembers_del. apply decide_True.
  apply is_kind_cases in Hk as [->|[->| ->]]; set_solver.
Qed.

(** C7: whatever is pending for collector [C], after [resetChanges]
    its three sets are empty and [getChangedIds] resolves to three empty
    arrays. *)
Theorem reset_then_read_is_empty (C : string) (st : redis) :
  let st1 := (resetChanges reliable C st).1 in
  (getChangedIds reliable C st1).2 = Resolved no_changes
  ∧ pending st1 C ADDED = ∅
  ∧ pending st1 C DELETED = ∅
  ∧ pending st1 C UPDATED = ∅.
Proof.
  intros st1. subst st1.
  split; [apply getChangedIds_no_pending|split_and!];
    by apply resetChanges_pending.
Qed.

(** ** A call that names no collector *)

(** C8: when both lists are empty, a call sends no request, neither a
    read nor a write: the data set and the requests issued are as
    before. *)
Theorem no_collectors_no_requests
    (unavailable : list request → request → bool) (gen : generator)
    (st : redis) :
  trackGeneratorChanges unavailable gen [] [] st = (st, JUndefined).
Proof. reflexivity. Qed.

(** ** The requests of a call *)

Section Issued.

Variable unavailable : list request → request → bool.

Lemma removeFromSet_issued c change g st :
  issued (removeFromSet unavailable c change g st).1
  = ((if is_kind change then [Single (SREM (getKey c change) g)] else [])
     ++ issued st)%list.
Proof.
  destruct (is_kind change) eqn:Hk.
  - by rewrite removeFromSet_kind, send_issued.
  - by rewrite removeFromSet_not_kind.
Qed.

Lemma addToSet_issued c change g st :
  issued (addToSet unavailable c change g st).1
  = ((if is_kind change then [Single (SADD (getKey c change) g)] else [])
     ++ issued st)%list.
Proof.
  destruct (is_kind change) eqn:Hk.
  - by rewrite addToSet_kind, send_issued.
  - by rewrite addToSet_not_kind.
Qed.

Lemma trackCollector_issued g old new all ch i ps st c :
  all !! i = Some c →
  issued (trackCollector unavailable g old new all ch i ps st).1
  = (rev (writes_for g old new c ch) ++ issued st)%list.
Proof.
  intros Hi. rewrite (trackCollector_state _ _ _ _ _ _ _ _ _ c) by done.
  rewrite addToSet_issued, removeFromSet_issued. unfold writes_for.
  rewrite rev_app_distr, <- app_assoc.
  by repeat case_match.
Qed.

Lemma forEach_issued g old new d0 pre suf ps st :
  issued (forEach_from (trackCollector unavailable g old new (pre ++ suf))
            (snapshot d0 <$> suf) (length pre) ps st).1
  = (rev (concat ((λ c, writes_for g old new c (snapshot d0 c)) <$> suf))
     ++ issued st)%list.
Proof.
  revert pre ps st. induction suf as [|c suf IH]; intros pre ps st; [done|].
  cbn [fmap list_fmap forEach_from concat].
  pose proof (trackCollector_issued g old new (pre ++ c :: suf)
                (snapshot d0 c) (length pre) ps st c
                (list_lookup_middle _ _ _ _ eq_refl)) as Hstep.
  destruct (trackCollector _ _ _ _ _ _ _ _ _) as [st1 ps1]. cbn [fst] in Hstep.
  specialize (IH (pre ++ [c]) ps1 st1).
  rewrite <- app_assoc, length_app, Nat.add_1_r in IH. cbn [app] in IH.
  rewrite IH, Hstep, rev_app_distr, <- app_assoc. done.
Qed.

(** The reads settle as one: rejected when one of them is, and otherwise
    resolved to what every collector has pending before the call. *)
Lemma Promise_all_reads l st :
  Promise_all (map_client (getChangedIds unavailable) l st).2
  = if some_read_rejected unavailable (issued st) l then Rejected
    else Resolved (snapshot (db st) <$> l).
Proof.
  revert st. induction l as [|c l IH]; intros st; [done|].
  cbn [map_client some_read_rejected]. rewrite getChangedIds_run.
  specialize (IH (mkRedis (db st) (read_request c :: issued st))).
  destruct (map_client _ l _) as [st2 ps]. cbn [snd db issued] in *.
  destruct (unavailable _ _); [done|]. cbn. rewrite IH.
  by destruct (some_read_rejected _ _ _).
Qed.

(** A call reads every collector of [Array.from(new Set(...))] once, in
    turn; when a read is rejected it sends nothing more, and otherwise it
    sends the writes of every one of them once, in turn. *)
Lemma trackGeneratorChanges_issued gen old new st :
  let all := Array_from_Set (old ++ new) in
  issued (trackGeneratorChanges unavailable gen old new st).1
  = (rev (if some_read_rejected unavailable (issued st) all then []
          else concat ((λ c, writes_for (id gen) old new c
                               (snapshot (db st) c)) <$> all))
     ++ rev (read_request <$> all) ++ issued st)%list.
Proof.
  intros all. rewrite trackGeneratorChanges_state.
  unfold trackGeneratorChanges_chain. fold all.
  pose proof (map_getChangedIds_issued unavailable all st) as Hiss.
  pose proof (Promise_all_reads all st) as Hres.
  destruct (map_client _ _ _) as [st1 reads]. cbn [fst snd] in Hiss, Hres.
  rewrite Hres.
  destruct (some_read_rejected _ _ _); cbn [then_do fst]; [done|].
  unfold forEach.
  pose proof (forEach_issued (id gen) old new (db st) [] all [] st1) as Hfe.
  cbn [app length] in Hfe.
  destruct (forEach_from _ _ _ _ _) as [st2 ps]. cbn [fst] in *.
  by rewrite Hfe, Hiss.
Qed.

End Issued.

(** ** What a call leaves alone *)

(** C10: whatever the store does with the requests, a call leaves the
    three sets of a collector named in neither list as they were, and
    leaves every id other than the generator's where it was in every set.
    The collectors it handles are those of the two lists without
    repetition: the call reads each of them once, in turn, and then sends
    the writes of each of them once, in turn, exactly as [determineChange]
    gives them; only when one of the reads is rejected does it send no
    write at all. *)
Theorem call_frame (unavailable : list request → request → bool)
    (gen : generator) (old new : list string) (st : redis)
    (c : string) (k : jsval) (g' : string) :
  is_kind k = true →
  let st' := (trackGeneratorChanges unavailable gen old new st).1 in
  let all := Array_from_Set (old ++ new) in
  ((c ∉ old) → (c ∉ new) → pending st' c k = pending st c k)
  ∧ (g' ≠ id gen → g' ∈ pending st' c k ↔ g' ∈ pending st c k)
  ∧ NoDup all
  ∧ (c ∈ all ↔ c ∈ old ∨ c ∈ new)
  ∧ issued st'
    = (rev (if some_read_rejected unavailable (issued st) all then []
            else concat ((λ c, writes_for (id gen) old new c
                                 (snapshot (db st) c)) <$> all))
       ++ rev (read_request <$> all) ++ issued st)%list.
Proof.
  intros Hk st' all. split_and!.
  - intros Ho Hn. apply set_eq. intros g. by apply pending_frame; [right|].
  - intros Hne. by apply pending_frame; [left|].
  - apply Array_from_Set_NoDup.
  - unfold all. by rewrite elem_of_Array_from_Set, elem_of_app.
  - apply trackGeneratorChanges_issued.
Qed.

Lemma call_frame_witness :
  let gen := mkGenerator "e1" in
  let old := ["A"; "B"; "A"] in
  let new := ["B"; "C"; "C"] in
  let st' := (trackGeneratorChanges reliable gen old new updated_redis).1 in
  let all := Array_from_Set (old ++ new) in
  (("D" ∉ old) → ("D" ∉ new)
   → pending st' "D" UPDATED = pending updated_redis "D" UPDATED)
  ∧ ("e2" ≠ "e1"
     → "e2" ∈ pending st' "D" UPDATED ↔ "e2" ∈ pending updated_redis "D" UPDATED)
  ∧ NoDup all
  ∧ ("D" ∈ all ↔ "D" ∈ old ∨ "D" ∈ new)
  ∧ issued st'
    = (rev (concat ((λ c, writes_for "e1" old new c
                            (snapshot (db updated_redis) c)) <$> all))
       ++ rev (read_request <$> all) ++ issued updated_redis)%list.
Proof.
  apply (call_frame reliable (mkGenerator "e1") ["A"; "B"; "A"]
           ["B"; "C"; "C"] updated_redis "D" UPDATED "e2").
  reflexivity.
Defined.

(** The requests of that call, most recent first: the three reads, then
    the removal and the addition for A (pending as updated, now removed),
    the addition for B (in both lists) and the addition for C (new). *)
Example call_frame_requests :
  issued (trackGeneratorChanges reliable (mkGenerator "e1") ["A"; "B"; "A"]
            ["B"; "C"; "C"] updated_redis).1
  = [Single (SADD (getKey "C" ADDED) "e1");
     Single (SADD (getKey "B" UPDATED) "e1");
     Single (SADD (getKey "A" DELETED) "e1");
     Single (SREM (getKey "A" UPDATED) "e1");
     read_request "C"; read_request "B"; read_request "A"].
Proof. vm_compute. reflexivity. Qed.

Example duplicates_are_dropped :
  Array_from_Set (["A"; "B"; "A"] ++ ["B"; "C"; "C"]) = ["A"; "B"; "C"].
Proof. reflexivity. Qed.

(** ** When the store fails *)




(** ** The scenario of a generator moving from collectors A, B to B, C *)

Example scenario :
  let st := run (trackGeneratorChanges reliable (mkGenerator "e1") ["A";"B"] ["B";"C"]) empty_redis in
  (elements (pending st "A" ADDED), elements (pending st "A" DELETED), elements (pending st "A" UPDATED),
   elements (pending st "B" ADDED), elements (pending st "B" DELETED), elements (pending st "B" UPDATED),
   elements (pending st "C" ADDED), elements (pending st "C" DELETED), elements (pending st "C" UPDATED))
  = ([], ["e1"], [], [], [], ["e1"], ["e1"], [], []).
Proof. vm_compute. reflexivity. Qed.

(** * Further properties of the module *)

(** ** Keys *)

(** X1: two keys are the same only for the same collector and the same
    change type, whatever the collector names contain. *)
Theorem keys_are_distinct (c1 c2 : string) (k1 k2 : jsval) :
  is_kind k1 = true → is_kind k2 = true →
  c1 ≠ c2 ∨ k1 ≠ k2 →
  getKey c1 k1 ≠ getKey c2 k2.
Proof.
  intros Hk1 Hk2 Hne Heq.
  destruct (getKey_inj c1 c2 k1 k2 Hk1 Hk2 Heq). tauto.
Qed.

Lemma keys_are_distinct_witness :
  getKey "A::added" DELETED ≠ getKey "A" ADDED.
Proof.
  apply (keys_are_distinct "A::added" "A" DELETED ADDED);
    [reflexivity|reflexivity|left; discriminate].
Defined.

(** ** Reading *)

(** X2: [getChangedIds] sends one request and leaves the data set as it
    is.  When the request is rejected so is the promise; otherwise the
    promise resolves to three arrays without repetition whose members are
    those of the three sets of the collector. *)
Theorem getChangedIds_reads (unavailable : list request → request → bool)
    (C : string) (st : redis) :
  let r := getChangedIds unavailable C st in
  db r.1 = db st
  ∧ issued r.1 = read_request C :: issued st
  ∧ if unavailable (issued st) (read_request C) then r.2 = Rejected
    else ∃ ch, r.2 = Resolved ch
      ∧ (∀ g, g ∈ added ch ↔ g ∈ pending st C ADDED)
      ∧ (∀ g, g ∈ deleted ch ↔ g ∈ pending st C DELETED)
      ∧ (∀ g, g ∈ updated ch ↔ g ∈ pending st C UPDATED)
      ∧ NoDup (added ch) ∧ NoDup (deleted ch) ∧ NoDup (updated ch).
Proof.
  cbn zeta. rewrite getChangedIds_run. cbn [fst snd db issued].
  split_and!; [done..|].
  destruct (unavailable _ _); [done|].
  exists (snapshot (db st) C). unfold snapshot, pending. cbn.
  split_and!; try done; try (intros g; apply elem_of_elements);
    apply NoDup_elements.
Qed.

(** ** Writing *)

Section Writes.

Variable unavailable : list request → request → bool.

Lemma addToSet_run c change g st :
  is_kind change = true →
  addToSet unavailable c change g st
  = let '(st1, p) := send unavailable (SADD (getKey c change) g) st in
    (st1, then_pure p Some).
Proof. unfold addToSet, is_kind. by intros ->. Qed.

Lemma removeFromSet_run c change g st :
  is_kind change = true →
  removeFromSet unavailable c change g st
  = let '(st1, p) := send unavailable (SREM (getKey c change) g) st in
    (st1, then_pure p Some).
Proof. unfold removeFromSet, is_kind. by intros ->. Qed.

End Writes.

(** X3: when the store answers, [addToSet] with one of the three change
    types adds the id to the set named, leaves every other set of every
    collector as it was, and resolves to the number of members added: 1
    for a new member, 0 for one already there. *)
Theorem addToSet_effect (unavailable : list request → request → bool)
    (C : string) (k : jsval) (g : string) (st : redis) :
  is_kind k = true →
  unavailable (issued st) (Single (SADD (getKey C k) g)) = false →
  let r := addToSet unavailable C k g st in
  pending r.1 C k = {[ g ]} ∪ pending st C k
  ∧ (∀ C' k', is_kind k' = true → C' ≠ C ∨ k' ≠ k →
       pending r.1 C' k' = pending st C' k')
  ∧ r.2 = Resolved (Some (RInt (if decide (g ∈ pending st C k) then 0 else 1))).
Proof.
  intros Hk Hu r. subst r. rewrite addToSet_run by done.
  unfold send, pending. rewrite Hu.
  pose proof (smembers_sadd (db st) (getKey C k) g) as Hs.
  destruct (exec_command _ _) as [d rp] eqn:He. cbn [fst snd db] in *.
  split_and!.
  - by rewrite Hs, decide_True.
  - intros C' k' Hk' Hne. rewrite Hs, decide_False; [done|].
    intros Heq. symmetry in Heq. by apply keys_are_distinct in Heq.
  - cbn in He. by injection He as _ <-.
Qed.

Lemma addToSet_effect_witness :
  let r := addToSet reliable "A" UPDATED "e1" updated_redis in
  pending r.1 "A" UPDATED = {[ "e1" ]} ∪ pending updated_redis "A" UPDATED
  ∧ (∀ C' k', is_kind k' = true → C' ≠ "A" ∨ k' ≠ UPDATED →
       pending r.1 C' k' = pending updated_redis C' k')
  ∧ r.2 = Resolved (Some (RInt
            (if decide ("e1" ∈ pending updated_redis "A" UPDATED)
             then 0 else 1))).
Proof.
  apply (addToSet_effect reliable "A" UPDATED "e1" updated_redis);
    reflexivity.
Defined.

(** X4: when the store answers, [removeFromSet] with one of the three
    change types removes the id from the set named, leaves every other set
    of every collector as it was, and resolves to the number of members
    removed: 1 for a member, 0 for an id that was not there. *)
Theorem removeFromSet_effect (unavailable : list request → request → bool)
    (C : string) (k : jsval) (g : string) (st : redis) :
  is_kind k = true →
  unavailable (issued st) (Single (SREM (getKey C k) g)) = false →
  let r := removeFromSet unavailable C k g st in
  pending r.1 C k = pending st C k ∖ {[ g ]}
  ∧ (∀ C' k', is_kind k' = true → C' ≠ C ∨ k' ≠ k →
       pending r.1 C' k' = pending st C' k')
  ∧ r.2 = Resolved (Some (RInt (if decide (g ∈ pending st C k) then 1 else 0))).
Proof.
  intros Hk Hu r. subst r. rewrite removeFromSet_run by done.
  unfold send, pending. rewrite Hu.
  pose proof (smembers_srem (db st) (getKey C k) g) as Hs.
  destruct (exec_command _ _) as [d rp] eqn:He. cbn [fst snd db] in *.
  split_and!.
  - by rewrite Hs, decide_True.
  - intros C' k' Hk' Hne. rewrite Hs, decide_False; [done|].
    intros Heq. symmetry in Heq. by apply keys_are_distinct in Heq.
  - cbn in He. by injection He as _ <-.
Qed.

Lemma removeFromSet_effect_witness :
  let r := removeFromSet reliable "A" UPDATED "e1" updated_redis in
  pending r.1 "A" UPDATED = pending updated_redis "A" UPDATED ∖ {[ "e1" ]}
  ∧ (∀ C' k', is_kind k' = true → C' ≠ "A" ∨ k' ≠ UPDATED →
       pending r.1 C' k' = pending updated_redis C' k')
  ∧ r.2 = Resolved (Some (RInt
            (if decide ("e1" ∈ pending updated_redis "A" UPDATED)
             then 1 else 0))).
Proof.
  apply (removeFromSet_effect reliable "A" UPDATED "e1" updated_redis);
    reflexivity.
Defined.

Lemma pending_addToSet C k g st C' k' :
  is_kind k = true →
  pending (addToSet reliable C k g st).1 C' k'
  = if decide (getKey C k = getKey C' k') then {[ g ]} ∪ pending st C k
    else pending st C' k'.
Proof.
  intros Hk. unfold pending. rewrite addToSet_kind, send_db by done.
  cbn [reliable]. apply smembers_sadd.
Qed.

Lemma pending_removeFromSet C k g st C' k' :
  is_kind k = true →
  pending (removeFromSet reliable C k g st).1 C' k'
  = if decide (getKey C k = getKey C' k') then pending st C k ∖ {[ g ]}
    else pending st C' k'.
Proof.
  intros Hk. unfold pending. rewrite removeFromSet_kind, send_db by done.
  cbn [reliable]. apply smembers_srem.
Qed.

(** X5: on a store that never fails, adding an id that is not in the set
    named and removing it again leaves every set of every collector as it
    was. *)
Theorem add_then_remove_restores (C : string) (k : jsval) (g : string)
    (st : redis) (C' : string) (k' : jsval) :
  is_kind k = true →
  g ∉ pending st C k →
  pending (removeFromSet reliable C k g (addToSet reliable C k g st).1).1 C' k'
  = pending st C' k'.
Proof.
  intros Hk Hg. rewrite pending_removeFromSet, !pending_addToSet by done.
  destruct (decide (getKey C k = getKey C' k')) as [Heq|Hne]; [|done].
  rewrite decide_True by done.
  unfold pending in *. rewrite <- Heq. set_solver.
Qed.

Lemma add_then_remove_restores_witness :
  pending (removeFromSet reliable "A" ADDED "e1"
             (addToSet reliable "A" ADDED "e1" updated_redis).1).1 "A" UPDATED
  = pending updated_redis "A" UPDATED.
Proof.
  apply (add_then_remove_restores "A" ADDED "e1" updated_redis "A" UPDATED).
  - reflexivity.
  - apply is_pending_false_iff. vm_compute. reflexivity.
Defined.

(** ** Resetting *)

(** X6: whatever the store does, [resetChanges] for one collector leaves
    the three sets of every other collector as they were. *)
Theorem resetChanges_leaves_others
    (unavailable : list request → request → bool) (C C' : string)
    (k : jsval) (st : redis) :
  is_kind k = true → C' ≠ C →
  pending (resetChanges unavailable C st).1 C' k = pending st C' k.
Proof.
  intros Hk Hne. unfold pending, resetChanges. rewrite send_db.
  destruct (unavailable _ _); [done|].
  rewrite smembers_del. apply decide_False.
  rewrite !elem_of_cons, elem_of_nil.
  intros [Heq|[Heq|[Heq|[]]]]; by apply getKey_inj in Heq as [? _].
Qed.

Lemma resetChanges_leaves_others_witness :
  pending (resetChanges reliable "B" updated_redis).1 "A" UPDATED
  = pending updated_redis "A" UPDATED.
Proof.
  apply (resetChanges_leaves_others reliable "B" "A" UPDATED updated_redis);
    [reflexivity|discriminate].
Defined.

(** ** What a call depends on *)

Lemma includes_true_iff l c : includes l c = true ↔ c ∈ l.
Proof. apply bool_decide_eq_true. Qed.

Lemma includes_false_iff l c : includes l c = false ↔ c ∉ l.
Proof. apply bool_decide_eq_false. Qed.

(** Where the generator's id is for collector [c] after a call depends
    only on whether each list names [c] and on where the id was for
    [c]. *)
Lemma member_determined gen old new old' new' st st2 c :
  includes old c = includes old' c →
  includes new c = includes new' c →
  (∀ k, is_kind k = true →
     is_pending st c k (id gen) = is_pending st2 c k (id gen)) →
  ∀ k, is_kind k = true →
    is_pending (trackGeneratorChanges reliable gen old new st).1 c k (id gen)
    = is_pending (trackGeneratorChanges reliable gen old' new' st2).1 c k
        (id gen).
Proof.
  intros Ho Hn Hst k Hk.
  destruct (decide (c ∈ old ∨ c ∈ new)) as [Hc|Hc].
  - assert (c ∈ old' ∨ c ∈ new') as Hc'.
    { by rewrite <- !includes_true_iff, <- Ho, <- Hn, !includes_true_iff. }
    rewrite !is_pending_reliable by done.
    by rewrite Ho, Hn, !Hst.
  - assert (¬ (c ∈ old' ∨ c ∈ new')) as Hc'.
    { by rewrite <- !includes_true_iff, <- Ho, <- Hn, !includes_true_iff. }
    trans (is_pending st c k (id gen)); [|rewrite Hst by done];
      unfold is_pending; apply bool_decide_ext;
      rewrite pending_frame; [done|right; tauto|done|done|right; tauto|done].
Qed.

Lemma pending_determined gen old new old' new' st st2 c k :
  includes old c = includes old' c →
  includes new c = includes new' c →
  (∀ k', is_kind k' = true → pending st c k' = pending st2 c k') →
  is_kind k = true →
  pending (trackGeneratorChanges reliable gen old new st).1 c k
  = pending (trackGeneratorChanges reliable gen old' new' st2).1 c k.
Proof.
  intros Ho Hn Hst Hk. apply set_eq. intros g.
  destruct (decide (g = id gen)) as [->|Hne].
  - rewrite <- !is_pending_true_iff.
    rewrite (member_determined gen old new old' new' st st2 c); [done..| |done].
    intros k' Hk'. unfold is_pending. by rewrite Hst.
  - rewrite !pending_frame, Hst; [done..|by left|done|by left|done].
Qed.

(** X7: on a store that never fails, two calls whose lists have the same
    members, in whatever order and however often repeated, leave the same
    sets for every collector. *)
Theorem order_and_repetition_are_irrelevant (gen : generator)
    (old new old' new' : list string) (st : redis) (c : string) (k : jsval) :
  (∀ x, x ∈ old ↔ x ∈ old') →
  (∀ x, x ∈ new ↔ x ∈ new') →
  is_kind k = true →
  pending (trackGeneratorChanges reliable gen old new st).1 c k
  = pending (trackGeneratorChanges reliable gen old' new' st).1 c k.
Proof.
  intros Ho Hn Hk. apply pending_determined; [..|done|done].
  - unfold includes. apply bool_decide_ext, Ho.
  - unfold includes. apply bool_decide_ext, Hn.
Qed.

Lemma order_and_repetition_are_irrelevant_witness :
  pending (trackGeneratorChanges reliable (mkGenerator "e1")
             ["A"; "B"] ["B"] updated_redis).1 "A" DELETED
  = pending (trackGeneratorChanges reliable (mkGenerator "e1")
               ["B"; "A"; "B"] ["B"; "B"] updated_redis).1 "A" DELETED.
Proof.
  apply (order_and_repetition_are_irrelevant (mkGenerator "e1")
           ["A"; "B"] ["B"] ["B"; "A"; "B"] ["B"; "B"]
           updated_redis "A" DELETED).
  - intros x. rewrite !elem_of_cons, !elem_of_nil. tauto.
  - intros x. rewrite !elem_of_cons, !elem_of_nil. tauto.
  - reflexivity.
Defined.

(** The list [l] cut down to collector [c]. *)
Lemma includes_only l c :
  includes (if includes l c then [c] else []) c = includes l c.
Proof.
  destruct (includes l c); [apply includes_singleton|apply includes_nil].
Qed.

(** X8: on a store that never fails, what a call leaves in the sets of a
    collector depends on the sets of that collector alone: it is what a
    call naming no other collector leaves, from any data set with the same
    three sets for that collector. *)
Theorem collectors_are_independent (gen : generator) (old new : list string)
    (st st2 : redis) (c : string) (k : jsval) :
  (∀ k', is_kind k' = true → pending st c k' = pending st2 c k') →
  is_kind k = true →
  pending (trackGeneratorChanges reliable gen old new st).1 c k
  = pending (trackGeneratorChanges reliable gen
               (if includes old c then [c] else [])
               (if includes new c then [c] else []) st2).1 c k.
Proof.
  intros Hst Hk. apply pending_determined; [..|done|done];
    by rewrite includes_only.
Qed.

Lemma collectors_are_independent_witness :
  pending (trackGeneratorChanges reliable (mkGenerator "e1")
             ["A"; "B"] ["B"; "C"] updated_redis).1 "A" DELETED
  = pending (trackGeneratorChanges reliable (mkGenerator "e1")
               (if includes ["A"; "B"] "A" then ["A"] else [])
               (if includes ["B"; "C"] "A" then ["A"] else [])
               updated_redis).1 "A" DELETED.
Proof.
  apply (collectors_are_independent (mkGenerator "e1") ["A"; "B"] ["B"; "C"]
           updated_redis updated_redis "A" DELETED).
  - intros k' _. reflexivity.
  - reflexivity.
Defined.

(** ** The compaction table, for any two lists *)

(** Where the generator's id is for any collector after a call, on a
    store that never fails. *)
Lemma is_pending_after gen old new st c k :
  is_kind k = true →
  is_pending (trackGeneratorChanges reliable gen old new st).1 c k (id gen)
  = let uc := determineChange (includes old c) (includes new c)
                (is_pending st c ADDED (id gen))
                (is_pending st c DELETED (id gen))
                (is_pending st c UPDATED (id gen)) in
    strict_eq uc.2 k || (is_pending st c k (id gen) && negb (strict_eq uc.1 k)).
Proof.
  intros Hk. destruct (decide (c ∈ old ∨ c ∈ new)) as [Hc|Hc].
  { by apply is_pending_reliable. }
  assert (includes old c = false) as -> by (apply includes_false_iff; tauto).
  assert (includes new c = false) as -> by (apply includes_false_iff; tauto).
  trans (is_pending st c k (id gen)).
  { unfold is_pending. apply bool_decide_ext.
    apply pending_frame; [right; tauto|done]. }
  apply is_kind_cases in Hk as [->|[->| ->]];
    destruct (is_pending st c ADDED (id gen)),
      (is_pending st c DELETED (id gen)),
      (is_pending st c UPDATED (id gen)); reflexivity.
Qed.

(** X9: on a store that never fails, a call made while the generator is
    in none of the three sets of a collector records the change of that
    collector and nothing else: added when only the new list names it,
    deleted when only the old list does, updated when both do, and
    nothing when neither does. *)
Theorem first_change_is_recorded (gen : generator) (old new : list string)
    (st : redis) (c : string) :
  id gen ∉ pending st c ADDED →
  id gen ∉ pending st c DELETED →
  id gen ∉ pending st c UPDATED →
  let st' := (trackGeneratorChanges reliable gen old new st).1 in
  (id gen ∈ pending st' c ADDED ↔ (c ∉ old) ∧ c ∈ new)
  ∧ (id gen ∈ pending st' c DELETED ↔ c ∈ old ∧ (c ∉ new))
  ∧ (id gen ∈ pending st' c UPDATED ↔ c ∈ old ∧ c ∈ new).
Proof.
  intros Ha%is_pending_false Hd%is_pending_false Hu%is_pending_false st'.
  subst st'. rewrite <- !is_pending_true_iff, !is_pending_after by done.
  rewrite Ha, Hd, Hu. unfold not. rewrite <- !includes_true_iff.
  destruct (includes old c), (includes new c); vm_compute; intuition congruence.
Qed.

Lemma first_change_is_recorded_witness :
  let st' := (trackGeneratorChanges reliable (mkGenerator "e1")
                ["A"; "B"] ["B"; "C"] empty_redis).1 in
  ("e1" ∈ pending st' "B" ADDED ↔ ("B" ∉ ["A"; "B"]) ∧ "B" ∈ ["B"; "C"])
  ∧ ("e1" ∈ pending st' "B" DELETED ↔ "B" ∈ ["A"; "B"] ∧ ("B" ∉ ["B"; "C"]))
  ∧ ("e1" ∈ pending st' "B" UPDATED ↔ "B" ∈ ["A"; "B"] ∧ "B" ∈ ["B"; "C"]).
Proof.
  apply (first_change_is_recorded (mkGenerator "e1") ["A"; "B"] ["B"; "C"]
           empty_redis "B");
    apply is_pending_false_iff; vm_compute; reflexivity.
Defined.

(** X10: on a store that never fails, when the generator is already in
    one of the three sets of a collector, and in no other, a call changes
    none of the three sets of that collector unless it undoes the change:
    removes the collector from a generator pending as added or as updated,
    or adds it to one pending as deleted. *)
Theorem pending_change_is_kept (gen : generator) (old new : list string)
    (st : redis) (c : string) (k0 k : jsval) :
  is_kind k0 = true → is_kind k = true →
  at_most_one st c (id gen) →
  id gen ∈ pending st c k0 →
  (k0 = DELETED → ¬ ((c ∉ old) ∧ c ∈ new)) →
  (k0 ≠ DELETED → ¬ (c ∈ old ∧ (c ∉ new))) →
  pending (trackGeneratorChanges reliable gen old new st).1 c k = pending st c k.
Proof.
  intros Hk0 Hk Hone Hin Hd Hau. apply set_eq. intros g.
  destruct (decide (g = id gen)) as [->|Hne];
    [|by apply pending_frame; [left|]].
  revert Hone Hin Hd Hau. unfold at_most_one, not.
  rewrite <- !is_pending_true_iff, is_pending_after by done.
  rewrite <- !includes_true_iff.
  apply is_kind_cases in Hk0 as [->|[->| ->]];
    apply is_kind_cases in Hk as [->|[->| ->]];
    destruct (includes old c), (includes new c),
      (is_pending st c ADDED (id gen)), (is_pending st c DELETED (id gen)),
      (is_pending st c UPDATED (id gen)); vm_compute; intuition congruence.
Qed.

Lemma pending_change_is_kept_witness :
  pending (trackGeneratorChanges reliable (mkGenerator "e1")
             ["A"; "B"] ["A"] updated_redis).1 "A" UPDATED
  = pending updated_redis "A" UPDATED.
Proof.
  apply (pending_change_is_kept (mkGenerator "e1") ["A"; "B"] ["A"]
           updated_redis "A" UPDATED UPDATED).
  - reflexivity.
  - reflexivity.
  - unfold at_most_one. rewrite <- !is_pending_true_iff.
    vm_compute. intuition discriminate.
  - apply is_pending_true_iff. vm_compute. reflexivity.
  - discriminate.
  - intros _ [_ Hn]. apply Hn. apply list_elem_of_singleton. reflexivity.
Defined.

(** X11: on a store that never fails, for a generator in exactly one of
    the three sets of a collector and any two lists: removing the
    collector from a generator pending as added leaves it in none of the
    sets; adding the collector to a generator pending as deleted leaves it
    in the updated set only; removing the collector from a generator
    pending as updated leaves it in the deleted set only. *)
Theorem pending_change_is_undone (gen : generator) (old new : list string)
    (st : redis) (c : string) (k0 : jsval) :
  is_kind k0 = true →
  at_most_one st c (id gen) →
  id gen ∈ pending st c k0 →
  (if decide (k0 = DELETED) then (c ∉ old) ∧ c ∈ new else c ∈ old ∧ (c ∉ new)) →
  let st' := (trackGeneratorChanges reliable gen old new st).1 in
  (id gen ∉ pending st' c ADDED)
  ∧ (id gen ∈ pending st' c DELETED ↔ k0 = UPDATED)
  ∧ (id gen ∈ pending st' c UPDATED ↔ k0 = DELETED).
Proof.
  intros Hk0 Hone Hin Hraw st'. subst st'.
  revert Hone Hin Hraw. unfold at_most_one, not.
  rewrite <- !is_pending_true_iff, !is_pending_after by done.
  apply is_kind_cases in Hk0 as [->|[->| ->]]; case_decide; try done;
    rewrite <- !includes_true_iff;
    destruct (includes old c), (includes new c),
      (is_pending st c ADDED (id gen)), (is_pending st c DELETED (id gen)),
      (is_pending st c UPDATED (id gen)); vm_compute; intuition congruence.
Qed.

Lemma pending_change_is_undone_witness :
  let st' := (trackGeneratorChanges reliable (mkGenerator "e1")
                ["A"; "B"] ["B"] added_redis).1 in
  ("e1" ∉ pending st' "A" ADDED)
  ∧ ("e1" ∈ pending st' "A" DELETED ↔ ADDED = UPDATED)
  ∧ ("e1" ∈ pending st' "A" UPDATED ↔ ADDED = DELETED).
Proof.
  apply (pending_change_is_undone (mkGenerator "e1") ["A"; "B"] ["B"]
           added_redis "A" ADDED).
  - reflexivity.
  - unfold at_most_one. rewrite <- !is_pending_true_iff.
    vm_compute. intuition discriminate.
  - apply is_pending_true_iff. vm_compute. reflexivity.
  - rewrite decide_False by discriminate. split.
    + apply list_elem_of_here.
    + rewrite list_elem_of_singleton. discriminate.
Defined.

(** ** The net change over several updates *)

(** One call of a history: when the sets of collector [c] say how
    membership went from [m0] to "named by [cur]", they say after the call
    how it went from [m0] to "named by [next]". *)
Lemma track_history_step gen cur next st c (m0 t : bool) :
  is_pending st c ADDED (id gen) = negb m0 && includes cur c →
  is_pending st c DELETED (id gen) = m0 && negb (includes cur c) →
  is_pending st c UPDATED (id gen) = m0 && includes cur c && t →
  let st1 := (trackGeneratorChanges reliable gen cur next st).1 in
  is_pending st1 c ADDED (id gen) = negb m0 && includes next c
  ∧ is_pending st1 c DELETED (id gen) = m0 && negb (includes next c)
  ∧ is_pending st1 c UPDATED (id gen)
    = m0 && includes next c && (t || includes cur c || includes next c).
Proof.
  intros Ha Hd Hu st1. subst st1. rewrite !is_pending_after by done.
  rewrite Ha, Hd, Hu.
  destruct m0, t, (includes cur c), (includes next c); vm_compute; done.
Qed.

Lemma last_cons {A} (l : list A) (a d : A) :
  List.last (a :: l) d = List.last l a.
Proof.
  revert a d. induction l as [|b l IH]; intros a d; [done|].
  change (List.last (a :: b :: l) d) with (List.last (b :: l) d).
  by rewrite !(IH b).
Qed.

Lemma track_history_net gen c (m0 : bool) nexts :
  ∀ cur next st (t : bool),
    is_pending st c ADDED (id gen) = negb m0 && includes cur c →
    is_pending st c DELETED (id gen) = m0 && negb (includes cur c) →
    is_pending st c UPDATED (id gen) = m0 && includes cur c && t →
    let st' := track_history gen cur (next :: nexts) st in
    let fin := List.last nexts next in
    is_pending st' c ADDED (id gen) = negb m0 && includes fin c
    ∧ is_pending st' c DELETED (id gen) = m0 && negb (includes fin c)
    ∧ is_pending st' c UPDATED (id gen) = m0 && includes fin c.
Proof.
  induction nexts as [|next' nexts IH]; intros cur next st t Ha Hd Hu.
  - destruct (track_history_step gen cur next st c m0 t Ha Hd Hu)
      as (Ha1 & Hd1 & Hu1).
    cbn. rewrite Ha1, Hd1, Hu1. split_and!; [done..|].
    destruct m0, t, (includes cur c), (includes next c); done.
  - destruct (track_history_step gen cur next st c m0 t Ha Hd Hu)
      as (Ha1 & Hd1 & Hu1).
    cbn zeta. rewrite last_cons.
    by apply (IH next next' _ (t || includes cur c || includes next c)).
Qed.

(** X12: on a store that never fails, let the collectors of a generator go
    from a first list through any number of updates to a last list, each
    update tracked by a call, starting with the generator in none of the
    three sets of a collector (as after a heartbeat).  In the end the
    generator is in the added set exactly when only the last list names
    the collector, in the deleted set exactly when only the first list
    does, and in the updated set exactly when both do: the sets hold the
    net change, whatever happened in between. *)
Theorem history_nets_out (gen : generator) (c : string)
    (first next : list string) (nexts : list (list string)) (st : redis) :
  id gen ∉ pending st c ADDED →
  id gen ∉ pending st c DELETED →
  id gen ∉ pending st c UPDATED →
  let st' := track_history gen first (next :: nexts) st in
  let final := List.last nexts next in
  (id gen ∈ pending st' c ADDED ↔ (c ∉ first) ∧ c ∈ final)
  ∧ (id gen ∈ pending st' c DELETED ↔ c ∈ first ∧ (c ∉ final))
  ∧ (id gen ∈ pending st' c UPDATED ↔ c ∈ first ∧ c ∈ final).
Proof.
  intros Ha%is_pending_false Hd%is_pending_false Hu%is_pending_false.
  destruct (track_history_net gen c (includes first c) nexts first next st
              false) as (Ha' & Hd' & Hu').
  { rewrite Ha. by destruct (includes first c). }
  { rewrite Hd. by destruct (includes first c). }
  { rewrite Hu. by destruct (includes first c). }
  cbn zeta. rewrite <- !is_pending_true_iff, Ha', Hd', Hu'.
  unfold not. rewrite <- !includes_true_iff.
  destruct (includes first c), (includes _ c); cbn; intuition congruence.
Qed.

Lemma history_nets_out_witness :
  let st' := track_history (mkGenerator "e1") ["A"]
               [[]; ["A"; "B"]; ["B"]; ["A"; "B"]] empty_redis in
  let final := List.last [["A"; "B"]; ["B"]; ["A"; "B"]] [] in
  ("e1" ∈ pending st' "A" ADDED ↔ ("A" ∉ ["A"]) ∧ "A" ∈ final)
  ∧ ("e1" ∈ pending st' "A" DELETED ↔ "A" ∈ ["A"] ∧ ("A" ∉ final))
  ∧ ("e1" ∈ pending st' "A" UPDATED ↔ "A" ∈ ["A"] ∧ "A" ∈ final).
Proof.
  apply (history_nets_out (mkGenerator "e1") "A" ["A"] []
           [["A"; "B"]; ["B"]; ["A"; "B"]] empty_redis);
    apply is_pending_false_iff; vm_compute; reflexivity.
Defined.

(** ** Repeating a call *)

(** X13: on a store that never fails, repeating a call with the same
    generator and lists changes no set of a collector, unless the
    generator was pending as added for a collector that the call
    removes. *)
Theorem repeated_call_changes_nothing (gen : generator)
    (old new : list string) (st : redis) (c : string) (k : jsval) :
  is_kind k = true →
  ¬ (id gen ∈ pending st c ADDED ∧ c ∈ old ∧ (c ∉ new)) →
  let st1 := (trackGeneratorChanges reliable gen old new st).1 in
  pending (trackGeneratorChanges reliable gen old new st1).1 c k
  = pending st1 c k.
Proof.
  intros Hk Hno st1. apply set_eq. intros g.
  destruct (decide (g = id gen)) as [->|Hne];
    [|by apply pending_frame; [left|]].
  subst st1. revert Hno. unfold not.
  rewrite <- !is_pending_true_iff, <- !includes_true_iff.
  rewrite (is_pending_after gen old new _ c k) by done.
  rewrite !(is_pending_after gen old new st c) by done.
  apply is_kind_cases in Hk as [->|[->| ->]];
    destruct (includes old c), (includes new c),
      (is_pending st c ADDED (id gen)), (is_pending st c DELETED (id gen)),
      (is_pending st c UPDATED (id gen)); vm_compute; intuition congruence.
Qed.

Lemma repeated_call_changes_nothing_witness :
  let st1 := (trackGeneratorChanges reliable (mkGenerator "e1")
                ["A"] [] updated_redis).1 in
  pending (trackGeneratorChanges reliable (mkGenerator "e1") ["A"] []
             st1).1 "A" DELETED
  = pending st1 "A" DELETED.
Proof.
  apply (repeated_call_changes_nothing (mkGenerator "e1") ["A"] []
           updated_redis "A" DELETED).
  - reflexivity.
  - intros [Hin _]. apply is_pending_true_iff in Hin.
    vm_compute in Hin. discriminate.
Defined.

(** X14: on a store that never fails, for a generator pending as added,
    and as nothing else, for a collector that a call removes: the call
    leaves the generator in none of the three sets, and the same call
    made again puts it in the deleted set. *)
Theorem repeated_cancellation_is_a_deletion (gen : generator)
    (old new : list string) (st : redis) (c : string) :
  id gen ∈ pending st c ADDED →
  id gen ∉ pending st c DELETED →
  id gen ∉ pending st c UPDATED →
  c ∈ old → c ∉ new →
  let st1 := (trackGeneratorChanges reliable gen old new st).1 in
  let st2 := (trackGeneratorChanges reliable gen old new st1).1 in
  ((id gen ∉ pending st1 c ADDED) ∧ (id gen ∉ pending st1 c DELETED)
   ∧ (id gen ∉ pending st1 c UPDATED))
  ∧ ((id gen ∉ pending st2 c ADDED) ∧ id gen ∈ pending st2 c DELETED
     ∧ (id gen ∉ pending st2 c UPDATED)).
Proof.
  intros Ha%is_pending_true Hd%is_pending_false Hu%is_pending_false
    Ho%includes_true_iff Hn%includes_false_iff st1 st2. subst st2.
  rewrite <- !is_pending_false_iff, <- !is_pending_true_iff.
  rewrite !(is_pending_after gen old new st1 c) by done. subst st1.
  rewrite !(is_pending_after gen old new st c) by done.
  rewrite Ha, Hd, Hu, Ho, Hn. vm_compute. done.
Qed.

Lemma repeated_cancellation_is_a_deletion_witness :
  let gen := mkGenerator "e1" in
  let st1 := (trackGeneratorChanges reliable gen ["A"] [] added_redis).1 in
  let st2 := (trackGeneratorChanges reliable gen ["A"] [] st1).1 in
  (("e1" ∉ pending st1 "A" ADDED) ∧ ("e1" ∉ pending st1 "A" DELETED)
   ∧ ("e1" ∉ pending st1 "A" UPDATED))
  ∧ (("e1" ∉ pending st2 "A" ADDED) ∧ "e1" ∈ pending st2 "A" DELETED
     ∧ ("e1" ∉ pending st2 "A" UPDATED)).
Proof.
  apply (repeated_cancellation_is_a_deletion (mkGenerator "e1") ["A"] []
           added_redis "A").
  - apply is_pending_true_iff. vm_compute. reflexivity.
  - apply is_pending_false_iff. vm_compute. reflexivity.
  - apply is_pending_false_iff. vm_compute. reflexivity.
  - apply list_elem_of_singleton. reflexivity.
  - apply not_elem_of_nil.
Defined.

(** ** Rejected reads *)

Lemma map_getChangedIds_rejected unavailable l st c :
  c ∈ l →
  (∀ h, unavailable h (read_request c) = true) →
  Promise_all (map_client (getChangedIds unavailable) l st).2 = Rejected.
Proof.
  intros Hc Hrej. revert st.
  induction l as [|c0 l IH]; intros st; [by apply elem_of_nil in Hc|].
  cbn [map_client]. rewrite getChangedIds_run.
  destruct (decide (c0 = c)) as [->|Hne].
  - rewrite Hrej. by destruct (map_client _ l _).
  - assert (c ∈ l) as Hl by (apply elem_of_cons in Hc as [?|?]; done).
    specialize (IH Hl (mkRedis (db st) (read_request c0 :: issued st))).
    destruct (map_client _ l _) as [st2 ps]. cbn [snd] in *.
    destruct (unavailable _ _); [done|]. cbn. by rewrite IH.
Qed.

(** X15: when the store rejects the read of one of the collectors named,
    a call still sends the read of every collector, sends no write for any
    of them, and leaves the data set as it was; the promise it leaves
    behind is rejected. *)
Theorem rejected_read_stops_every_write
    (unavailable : list request → request → bool) (gen : generator)
    (old new : list string) (st : redis) (c : string) :
  c ∈ old ∨ c ∈ new →
  (∀ h, unavailable h (read_request c) = true) →
  let st' := (trackGeneratorChanges unavailable gen old new st).1 in
  db st' = db st
  ∧ issued st'
    = (rev (read_request <$> Array_from_Set (old ++ new)) ++ issued st)%list
  ∧ (trackGeneratorChanges_chain unavailable gen old new st).2 = Rejected.
Proof.
  intros Hc Hrej st'. subst st'. rewrite trackGeneratorChanges_state.
  unfold trackGeneratorChanges_chain.
  pose proof (map_getChangedIds_db unavailable
                (Array_from_Set (old ++ new)) st) as Hdb.
  pose proof (map_getChangedIds_issued unavailable
                (Array_from_Set (old ++ new)) st) as Hiss.
  pose proof (map_getChangedIds_rejected unavailable
                (Array_from_Set (old ++ new)) st c) as Hall.
  destruct (map_client _ _ _) as [st1 reads]. cbn [fst snd] in *.
  rewrite Hall; [done| |done].
  by rewrite elem_of_Array_from_Set, elem_of_app.
Qed.

Lemma rejected_read_stops_every_write_witness :
  let st' := (trackGeneratorChanges rejects_read_of_B (mkGenerator "e1")
                ["A"] ["B"] updated_redis).1 in
  db st' = db updated_redis
  ∧ issued st'
    = (rev (read_request <$> Array_from_Set (["A"] ++ ["B"]))
       ++ issued updated_redis)%list
  ∧ (trackGeneratorChanges_chain rejects_read_of_B (mkGenerator "e1")
       ["A"] ["B"] updated_redis).2 = Rejected.
Proof.
  apply (rejected_read_stops_every_write rejects_read_of_B
           (mkGenerator "e1") ["A"] ["B"] updated_redis "B").
  - right. apply list_elem_of_singleton. reflexivity.
  - intros h. reflexivity.
Defined.

(** ** Rejected writes *)

Section Outcome.

Variable unavailable : list request → request → bool.
Variables (genId : string) (oldCollectors newCollectors allCollectors : list string).

(** The collector [c], and whether the store answers its removals and
    its additions. *)
Variables (c : string) (rem_ok add_ok : bool).
Hypothesis answers_rem : ∀ h k,
  unavailable h (Single (SREM (getKey c k) genId)) = negb rem_ok.
Hypothesis answers_add : ∀ h k,
  unavailable h (Single (SADD (getKey c k) genId)) = negb add_ok.

Local Abbreviation step :=
  (trackCollector unavailable genId oldCollectors newCollectors allCollectors).

Lemma removeFromSet_outcome change st k :
  is_kind k = true →
  genId ∈ smembers (db (removeFromSet unavailable c change genId st).1)
            (getKey c k)
  ↔ genId ∈ smembers (db st) (getKey c k) ∧ ¬ (change = k ∧ rem_ok = true).
Proof.
  intros Hk. destruct (decide (change = k)) as [->|Hne].
  - rewrite removeFromSet_kind, send_db, answers_rem by done.
    destruct rem_ok; cbn [negb].
    + rewrite smembers_srem, decide_True by done. set_solver.
    + naive_solver.
  - rewrite removeFromSet_frame; [naive_solver|].
    right. intros ?. by apply getKey_kind_ne.
Qed.

Lemma addToSet_outcome change st k :
  is_kind k = true →
  genId ∈ smembers (db (addToSet unavailable c change genId st).1)
            (getKey c k)
  ↔ (change = k ∧ add_ok = true) ∨ genId ∈ smembers (db st) (getKey c k).
Proof.
  intros Hk. destruct (decide (change = k)) as [->|Hne].
  - rewrite addToSet_kind, send_db, answers_add by done.
    destruct add_ok; cbn [negb].
    + rewrite smembers_sadd, decide_True by done. set_solver.
    + naive_solver.
  - rewrite addToSet_frame; [naive_solver|].
    right. intros ?. by apply getKey_kind_ne.
Qed.

Lemma trackCollector_outcome ch i ps st undo change k :
  allCollectors !! i = Some c →
  determineChange (includes oldCollectors c) (includes newCollectors c)
    (includes (added ch) genId) (includes (deleted ch) genId)
    (includes (updated ch) genId) = (undo, change) →
  is_kind k = true →
  genId ∈ smembers (db (step ch i ps st).1) (getKey c k)
  ↔ (change = k ∧ add_ok = true)
    ∨ (genId ∈ smembers (db st) (getKey c k) ∧ ¬ (undo = k ∧ rem_ok = true)).
Proof.
  intros Hi Hdet Hk.
  rewrite (trackCollector_state _ _ _ _ _ _ _ _ _ c), Hdet by done.
  cbn [fst snd]. by rewrite addToSet_outcome, removeFromSet_outcome.
Qed.

Lemma forEach_outcome chs i ps st j ch undo change k :
  NoDup allCollectors →
  allCollectors !! j = Some c → i ≤ j → chs !! (j - i) = Some ch →
  determineChange (includes oldCollectors c) (includes newCollectors c)
    (includes (added ch) genId) (includes (deleted ch) genId)
    (includes (updated ch) genId) = (undo, change) →
  is_kind k = true →
  genId ∈ smembers (db (forEach_from step chs i ps st).1) (getKey c k)
  ↔ (change = k ∧ add_ok = true)
    ∨ (genId ∈ smembers (db st) (getKey c k) ∧ ¬ (undo = k ∧ rem_ok = true)).
Proof.
  intros Hnd Hj Hij Hch Hdet Hk.
  revert i ps st Hij Hch.
  induction chs as [|ch0 chs IH]; intros i ps st Hij Hch; [done|].
  cbn [forEach_from].
  assert (∀ j' c' k', j' ≠ j → allCollectors !! j' = Some c' →
            is_kind k' = true → getKey c k ≠ getKey c' k') as Hother.
  { intros j' c' k' Hne Hj' Hk'. apply getKey_collector_ne; [done..|].
    intros <-. apply Hne. by eapply NoDup_lookup. }
  destruct (decide (i = j)) as [->|Hne].
  - rewrite Nat.sub_diag in Hch. injection Hch as ->.
    pose proof (trackCollector_outcome ch j ps st undo change k
                  Hj Hdet Hk) as Hstep.
    destruct (step ch j ps st) as [st1 ps1]. cbn [fst] in Hstep.
    rewrite forEach_frame; [done|right].
    intros j' c' k' ? ? ?. apply (Hother j'); [lia|done..].
  - pose proof (trackCollector_frame unavailable genId oldCollectors
                  newCollectors allCollectors ch0 i ps st (getKey c k) genId)
      as Hstep.
    destruct (step ch0 i ps st) as [st1 ps1]. cbn [fst] in Hstep.
    rewrite IH, Hstep; [done| |lia|].
    + right. intros c' k' ??. by apply (Hother i).
    + replace (j - i) with (S (j - S i)) in Hch by lia. done.
Qed.

End Outcome.

(** Where the generator's id is for collector [c] after a call, when no
    read is rejected and the store answers all the removals about [c], or
    none, and all the additions about [c], or none. *)
Lemma trackGeneratorChanges_outcome unavailable gen old new st c
    (rem_ok add_ok : bool) undo change k :
  (∀ h c', c' ∈ old ∨ c' ∈ new → unavailable h (read_request c') = false) →
  c ∈ old ∨ c ∈ new →
  (∀ h k', unavailable h (Single (SREM (getKey c k') (id gen))) = negb rem_ok) →
  (∀ h k', unavailable h (Single (SADD (getKey c k') (id gen))) = negb add_ok) →
  determineChange (includes old c) (includes new c)
    (bool_decide (id gen ∈ pending st c ADDED))
    (bool_decide (id gen ∈ pending st c DELETED))
    (bool_decide (id gen ∈ pending st c UPDATED)) = (undo, change) →
  is_kind k = true →
  id gen ∈ pending (trackGeneratorChanges unavailable gen old new st).1 c k
  ↔ (change = k ∧ add_ok = true)
    ∨ (id gen ∈ pending st c k ∧ ¬ (undo = k ∧ rem_ok = true)).
Proof.
  intros Hreads Hc Hrem Hadd Hdet Hk. unfold pending.
  rewrite trackGeneratorChanges_state. unfold trackGeneratorChanges_chain.
  pose proof (map_getChangedIds_db unavailable
                (Array_from_Set (old ++ new)) st) as Hdb.
  pose proof (map_getChangedIds_available unavailable
                (Array_from_Set (old ++ new)) st) as Hall.
  destruct (map_client _ _ _) as [st1 reads]. cbn [fst snd] in Hdb, Hall.
  rewrite Hall; cycle 1.
  { intros h c' Hc'. apply Hreads.
    by rewrite elem_of_Array_from_Set, elem_of_app in Hc'. }
  cbn [then_do]. unfold forEach.
  assert (c ∈ Array_from_Set (old ++ new)) as [j Hj]%list_elem_of_lookup_1.
  { by rewrite elem_of_Array_from_Set, elem_of_app. }
  pose proof (forEach_outcome unavailable (id gen) old new
                (Array_from_Set (old ++ new)) c rem_ok add_ok Hrem Hadd
                (snapshot (db st) <$> Array_from_Set (old ++ new))
                0 [] st1 j (snapshot (db st) c) undo change k
                (Array_from_Set_NoDup _) Hj) as Hfe.
  destruct (forEach_from _ _ _ _ _) as [st2 ps]. cbn [fst] in *.
  rewrite Hfe, Hdb; [done|lia| | |done].
  - rewrite Nat.sub_0_r, list_lookup_fmap, Hj. done.
  - cbn [snapshot added deleted updated]. by rewrite !includes_elements.
Qed.

(** X16: the two writes of a collector are not one step.  When no read
    is rejected and the store rejects the removals about a collector but
    answers the additions, a call that removes the collector from a
    generator pending as updated, and as nothing else, leaves the
    generator in both the updated and the deleted set of the collector. *)
Theorem rejected_removal_leaves_two_sets
    (unavailable : list request → request → bool) (gen : generator)
    (old new : list string) (st : redis) (c : string) :
  (∀ h c', c' ∈ old ∨ c' ∈ new → unavailable h (read_request c') = false) →
  (∀ h k, unavailable h (Single (SREM (getKey c k) (id gen))) = true) →
  (∀ h k, unavailable h (Single (SADD (getKey c k) (id gen))) = false) →
  id gen ∈ pending st c UPDATED →
  id gen ∉ pending st c ADDED →
  id gen ∉ pending st c DELETED →
  c ∈ old → c ∉ new →
  let st' := (trackGeneratorChanges unavailable gen old new st).1 in
  id gen ∈ pending st' c UPDATED ∧ id gen ∈ pending st' c DELETED.
Proof.
  intros Hreads Hrem Hadd Hu Ha Hd Ho Hn st'. subst st'.
  assert (determineChange (includes old c) (includes new c)
            (bool_decide (id gen ∈ pending st c ADDED))
            (bool_decide (id gen ∈ pending st c DELETED))
            (bool_decide (id gen ∈ pending st c UPDATED))
          = (UPDATED, DELETED)) as Hdet.
  { apply includes_true_iff in Ho. apply includes_false_iff in Hn.
    rewrite Ho, Hn, !bool_decide_eq_false_2, bool_decide_eq_true_2 by done.
    reflexivity. }
  rewrite !(trackGeneratorChanges_outcome unavailable gen old new st c
              false true UPDATED DELETED) by (done || by left).
  split; [right; split; [done|]; by intros [_ ?]|by left].
Qed.

Lemma rejected_removal_leaves_two_sets_witness :
  let st' := (trackGeneratorChanges rejects_srem (mkGenerator "e1")
                ["A"] [] updated_redis).1 in
  "e1" ∈ pending st' "A" UPDATED ∧ "e1" ∈ pending st' "A" DELETED.
Proof.
  apply (rejected_removal_leaves_two_sets rejects_srem (mkGenerator "e1")
           ["A"] [] updated_redis "A").
  - intros h c' _. reflexivity.
  - intros h k. reflexivity.
  - intros h k. reflexivity.
  - apply is_pending_true_iff. vm_compute. reflexivity.
  - apply is_pending_false_iff. vm_compute. reflexivity.
  - apply is_pending_false_iff. vm_compute. reflexivity.
  - apply list_elem_of_singleton. reflexivity.
  - apply not_elem_of_nil.
Defined.

(** ** What a call sends *)

Lemma elem_of_rev {A} (l : list A) (x : A) : x ∈ rev l ↔ x ∈ l.
Proof. rewrite !list_elem_of_In. symmetry. apply in_rev. Qed.

Lemma elem_of_concat_fmap {A B} (f : A → list B) (l : list A) (b : B) :
  b ∈ concat (f <$> l) → ∃ a, a ∈ l ∧ b ∈ f a.
Proof.
  induction l as [|a l IH]; cbn; [by intros ?%elem_of_nil|].
  rewrite elem_of_app. intros [Hb|Hb].
  - exists a. split; [apply list_elem_of_here|done].
  - destruct (IH Hb) as (a' & ? & ?). exists a'.
    split; [by apply list_elem_of_further|done].
Qed.

Lemma length_concat_writes_for g old new d (l : list string) :
  length (concat ((λ c, writes_for g old new c (snapshot d c)) <$> l))
  ≤ 2 * length l.
Proof.
  induction l as [|c l IH]; cbn; [lia|].
  rewrite length_app. unfold writes_for at 1. rewrite length_app.
  repeat case_match; cbn; cbn in IH; lia.
Qed.

Lemma filter_rev {A} (P : A → Prop) `{!∀ x, Decision (P x)} (l : list A) :
  filter P (rev l) = rev (filter P l).
Proof.
  induction l as [|a l IH]; [done|].
  cbn [rev]. rewrite filter_app, IH, !filter_cons, filter_nil.
  by destruct (decide (P a)); cbn [rev]; rewrite ?app_nil_r.
Qed.

(** A request that names a key of one collector names no key of
    another. *)
Lemma concerns_key c c' k :
  is_kind k = true →
  bool_decide (getKey c' k ∈ keys_of c) = bool_decide (c' = c).
Proof.
  intros Hk. apply bool_decide_ext. unfold keys_of.
  rewrite !elem_of_cons, elem_of_nil. split.
  - intros [He|[He|[He|[]]]]; by apply getKey_inj in He as [? _].
  - intros ->. apply is_kind_cases in Hk as [->|[->| ->]]; tauto.
Qed.

Lemma concerns_read c c' : concerns c (read_request c') ↔ c' = c.
Proof.
  unfold concerns, read_request. cbn.
  rewrite !concerns_key by done.
  rewrite !orb_True, bool_decide_spec. cbn. tauto.
Qed.

Lemma concerns_SREM c c' k g :
  is_kind k = true → concerns c (Single (SREM (getKey c' k) g)) ↔ c' = c.
Proof.
  intros Hk. unfold concerns. cbn. rewrite concerns_key by done.
  rewrite orb_True, bool_decide_spec. cbn. tauto.
Qed.

Lemma concerns_SADD c c' k g :
  is_kind k = true → concerns c (Single (SADD (getKey c' k) g)) ↔ c' = c.
Proof.
  intros Hk. unfold concerns. cbn. rewrite concerns_key by done.
  rewrite orb_True, bool_decide_spec. cbn. tauto.
Qed.

Lemma length_writes_for g old new c ch :
  length (writes_for g old new c ch) ≤ 2.
Proof.
  unfold writes_for. rewrite length_app. repeat case_match; cbn; lia.
Qed.

Lemma filter_concerns_writes_for c c' g old new ch :
  c' ≠ c → filter (concerns c) (writes_for g old new c' ch) = [].
Proof.
  intros Hne. unfold writes_for. rewrite filter_app.
  set (uc := determineChange _ _ _ _ _). clearbody uc.
  assert (filter (concerns c)
            (if is_kind uc.1 then [Single (SREM (getKey c' uc.1) g)] else [])
          = []) as ->.
  { destruct (is_kind uc.1) eqn:Hu; [|apply filter_nil].
    rewrite filter_cons_False; [apply filter_nil|].
    rewrite concerns_SREM; [exact Hne|exact Hu]. }
  destruct (is_kind uc.2) eqn:Hc; [|apply filter_nil].
  rewrite filter_cons_False; [apply filter_nil|].
  rewrite concerns_SADD; [exact Hne|exact Hc].
Qed.

Lemma filter_concerns_writes c g old new d (l : list string) :
  ((c ∉ l) →
   filter (concerns c)
     (concat ((λ c', writes_for g old new c' (snapshot d c')) <$> l)) = [])
  ∧ (NoDup l →
     length (filter (concerns c)
               (concat ((λ c', writes_for g old new c' (snapshot d c')) <$> l)))
     ≤ 2).
Proof.
  induction l as [|c0 l [IH1 IH2]]; [split; cbn; intros; [done|lia]|].
  cbn [fmap list_fmap concat]. rewrite filter_app. split.
  - intros Hc. rewrite not_elem_of_cons in Hc. destruct Hc as [Hc0 Hc].
    by rewrite filter_concerns_writes_for, IH1.
  - intros [Hc0 Hnd]%NoDup_cons. rewrite length_app.
    destruct (decide (c0 = c)) as [->|Hne].
    + rewrite IH1 by done. cbn [length].
      pose proof (length_filter (concerns c)
                    (writes_for g old new c (snapshot d c))).
      pose proof (length_writes_for g old new c (snapshot d c)). lia.
    + rewrite filter_concerns_writes_for by done. cbn [length].
      by apply IH2.
Qed.

Lemma filter_concerns_reads c (l : list string) :
  ((c ∉ l) → filter (concerns c) (read_request <$> l) = [])
  ∧ (NoDup l → c ∈ l →
     length (filter (concerns c) (read_request <$> l)) = 1).
Proof.
  induction l as [|c0 l [IH1 IH2]];
    [split; [done|by intros _ ?%elem_of_nil]|].
  cbn [fmap list_fmap]. split.
  - intros Hc. rewrite not_elem_of_cons in Hc. destruct Hc as [Hc0 Hc].
    rewrite filter_cons_False; [by apply IH1|].
    rewrite concerns_read. congruence.
  - intros [Hc0 Hnd]%NoDup_cons Hc.
    destruct (decide (c0 = c)) as [->|Hne].
    + rewrite filter_cons_True by by apply concerns_read.
      cbn [length]. by rewrite IH1.
    + rewrite filter_cons_False by by rewrite concerns_read.
      apply IH2; [done|]. apply elem_of_cons in Hc as [?|?]; congruence.
Qed.

(** X17: whatever the store does, the requests of a call are reads of the
    collectors named in the two lists and removals or additions of the
    generator's id, in one of the three sets of such a collector.  No
    request names a key of a collector that is in neither list; of the
    requests naming a key of a collector that is in one of them, one is its
    read and at most two are writes, so at most three in all.  A call sends
    no DEL, touches no set of another collector and writes no other id. *)
Theorem requests_of_a_call (unavailable : list request → request → bool)
    (gen : generator) (old new : list string) (st : redis) :
  ∃ sent,
    issued (trackGeneratorChanges unavailable gen old new st).1
    = (sent ++ issued st)%list
    ∧ length sent ≤ 3 * length (Array_from_Set (old ++ new))
    ∧ (∀ rq, rq ∈ sent →
        ∃ c, (c ∈ old ∨ c ∈ new)
          ∧ (rq = read_request c
             ∨ ∃ k, is_kind k = true
                 ∧ (rq = Single (SREM (getKey c k) (id gen))
                    ∨ rq = Single (SADD (getKey c k) (id gen)))))
    ∧ ∀ c,
        if decide (c ∈ old ∨ c ∈ new)
        then 1 ≤ length (filter (concerns c) sent) ≤ 3
             ∧ length (filter (λ rq, rq = read_request c) sent) = 1
        else filter (concerns c) sent = [].
Proof.
  pose proof (trackGeneratorChanges_issued unavailable gen old new st) as Hiss.
  cbn zeta in Hiss.
  set (all := Array_from_Set (old ++ new)) in *.
  set (writes := if some_read_rejected unavailable (issued st) all then []
                 else concat ((λ c, writes_for (id gen) old new c
                                      (snapshot (db st) c)) <$> all)) in *.
  assert (writes = []
          ∨ writes = concat ((λ c, writes_for (id gen) old new c
                                     (snapshot (db st) c)) <$> all))
    as Hwrites.
  { subst writes. destruct (some_read_rejected _ _ _); [by left|by right]. }
  clearbody writes.
  exists (rev writes ++ rev (read_request <$> all))%list.
  split_and!.
  - by rewrite <- app_assoc.
  - rewrite length_app, !length_rev, length_fmap.
    destruct Hwrites as [->| ->]; [cbn; lia|].
    pose proof (length_concat_writes_for (id gen) old new (db st) all). lia.
  - intros rq. rewrite elem_of_app, !elem_of_rev.
    intros [Hrq|Hrq].
    + destruct Hwrites as [->| ->]; [by apply elem_of_nil in Hrq|].
      apply elem_of_concat_fmap in Hrq as (c & Hc & Hrq).
      exists c. unfold all in Hc.
      rewrite elem_of_Array_from_Set, elem_of_app in Hc.
      split; [done|right].
      unfold writes_for in Hrq. apply elem_of_app in Hrq as [Hrq|Hrq];
        case_match; try (by apply elem_of_nil in Hrq);
        apply list_elem_of_singleton in Hrq; eauto.
    + apply list_elem_of_fmap in Hrq as (c & -> & Hc).
      exists c. unfold all in Hc.
      rewrite elem_of_Array_from_Set, elem_of_app in Hc.
      split; [done|by left].
  - intros c.
    assert (c ∈ all ↔ c ∈ old ∨ c ∈ new) as Hall.
    { unfold all. by rewrite elem_of_Array_from_Set, elem_of_app. }
    pose proof (Array_from_Set_NoDup (old ++ new)) as Hnd. fold all in Hnd.
    destruct (filter_concerns_reads c all) as [Hr0 Hr1].
    destruct (filter_concerns_writes c (id gen) old new (db st) all)
      as [Hw0 Hw2].
    rewrite !filter_app, !filter_rev.
    case_decide as Hc.
    + apply Hall in Hc. rewrite length_app, !length_rev, (Hr1 Hnd Hc).
      assert (length (filter (concerns c) writes) ≤ 2) as Hlen.
      { destruct Hwrites as [->| ->]; [cbn; lia|by apply Hw2]. }
      split; [lia|].
      rewrite length_app, !length_rev.
      assert (filter (λ rq, rq = read_request c) writes = []) as ->.
      { destruct Hwrites as [->| ->]; [done|].
        clear. induction all as [|c0 l IH]; [done|].
        cbn [fmap list_fmap concat]. rewrite filter_app, IH, app_nil_r.
        unfold writes_for. rewrite filter_app.
        set (uc := determineChange _ _ _ _ _). clearbody uc.
        destruct (is_kind uc.1), (is_kind uc.2);
          rewrite ?filter_nil, ?(filter_cons_False _ (Single _)), ?filter_nil;
          try reflexivity; intros [=]. }
      cbn [length].
      clear -Hnd Hc. induction all as [|c0 l IH]; [by apply elem_of_nil in Hc|].
      apply NoDup_cons in Hnd as [Hc0 Hnd]. cbn [fmap list_fmap].
      assert (∀ c1, read_request c1 = read_request c → c1 = c) as Hinj.
      { intros c1 Heq. unfold read_request in Heq.
        assert (getKey c1 ADDED = getKey c ADDED) as He by congruence.
        by apply getKey_inj in He as [? _]. }
      destruct (decide (c0 = c)) as [->|Hne].
      * rewrite filter_cons_True by done. cbn [length]. f_equal.
        assert (filter (λ rq, rq = read_request c) (read_request <$> l) = [])
          as ->; [|done].
        clear -Hc0 Hinj. induction l as [|c1 l IH]; [done|].
        rewrite not_elem_of_cons in Hc0. destruct Hc0 as [? ?].
        cbn [fmap list_fmap]. rewrite filter_cons_False; [by apply IH|].
        intros ?%Hinj. congruence.
      * rewrite filter_cons_False by (intros ?%Hinj; congruence).
        apply IH; [done|]. apply elem_of_cons in Hc as [?|?]; congruence.
    + rewrite <- Hall in Hc. rewrite (Hr0 Hc).
      assert (filter (concerns c) writes = []) as ->; [|done].
      destruct Hwrites as [->| ->]; [done|]. exact (Hw0 Hc).
Qed.

(** ** Mutual exclusivity over any sequence of actions *)

Lemma at_most_one_track gen old new st c g :
  at_most_one st c g →
  at_most_one (trackGeneratorChanges reliable gen old new st).1 c g.
Proof.
  unfold at_most_one.
  destruct (decide (g = id gen)) as [->|Hne].
  - rewrite <- !is_pending_true_iff, !is_pending_after by done.
    destruct (includes old c), (includes new c),
      (is_pending st c ADDED (id gen)), (is_pending st c DELETED (id gen)),
      (is_pending st c UPDATED (id gen)); vm_compute; intuition congruence.
  - by rewrite !(pending_frame reliable gen old new st c _ g)
      by (done || by left).
Qed.

Lemma pending_resetChanges C st C' k :
  is_kind k = true →
  pending (resetChanges reliable C st).1 C' k
  = if decide (C' = C) then ∅ else pending st C' k.
Proof.
  intros Hk. case_decide as Heq; [subst; by apply resetChanges_pending|].
  unfold pending, resetChanges. rewrite send_db. cbn [reliable].
  rewrite smembers_del. apply decide_False.
  rewrite !elem_of_cons, elem_of_nil.
  intros [He|[He|[He|[]]]]; by apply getKey_inj in He as [? _].
Qed.

Lemma at_most_one_perform a st :
  (∀ c g, at_most_one st c g) → ∀ c g, at_most_one (perform a st) c g.
Proof.
  intros Hinv c g. destruct a as [gen old new|c0|c0]; cbn [perform].
  - by apply at_most_one_track.
  - unfold at_most_one, pending. rewrite getChangedIds_run. apply Hinv.
  - unfold at_most_one. rewrite !pending_resetChanges by done.
    case_decide; [set_solver|apply Hinv].
Qed.

(** X18: on a store that never fails, a data set in which every id is in
    at most one of the three sets of every collector stays so under any
    sequence of calls of the three functions the module exports. *)
Theorem exclusivity_is_invariant (acts : list action) (st : redis)
    (c g : string) :
  (∀ c' g', at_most_one st c' g') →
  at_most_one (perform_all acts st) c g.
Proof.
  intros Hinv. revert c g. revert st Hinv. unfold perform_all.
  induction acts as [|a acts IH]; intros st Hinv; [done|].
  cbn [fold_left]. apply IH. by apply at_most_one_perform.
Qed.

Lemma exclusivity_is_invariant_witness :
  at_most_one
    (perform_all [Track (mkGenerator "e1") [] ["A"]; Read "A";
                  Track (mkGenerator "e1") ["A"] ["A"; "B"]; Reset "A";
                  Track (mkGenerator "e1") ["A"; "B"] []] empty_redis)
    "A" "e1".
Proof.
  apply (exclusivity_is_invariant
           [Track (mkGenerator "e1") [] ["A"]; Read "A";
            Track (mkGenerator "e1") ["A"] ["A"; "B"]; Reset "A";
            Track (mkGenerator "e1") ["A"; "B"] []] empty_redis "A" "e1").
  intros c' g'. unfold at_most_one, pending, smembers. cbn [db empty_redis].
  rewrite !lookup_empty. cbn. rewrite elem_of_empty. tauto.
Defined.

(** ** Calls and resets in either order *)

(** X19: on a store that never fails, calls for two generators with
    different ids leave the same sets whichever is made first. *)
Theorem calls_for_two_generators_commute (gen1 gen2 : generator)
    (old1 new1 old2 new2 : list string) (st : redis) (c : string) (k : jsval) :
  id gen1 ≠ id gen2 →
  is_kind k = true →
  pending (trackGeneratorChanges reliable gen2 old2 new2
             (trackGeneratorChanges reliable gen1 old1 new1 st).1).1 c k
  = pending (trackGeneratorChanges reliable gen1 old1 new1
               (trackGeneratorChanges reliable gen2 old2 new2 st).1).1 c k.
Proof.
  intros Hne Hk. apply set_eq. intros g.
  destruct (decide (g = id gen1)) as [->|H1].
  - rewrite (pending_frame reliable gen2) by (done || by left).
    rewrite <- !is_pending_true_iff.
    rewrite (member_determined gen1 old1 new1 old1 new1 st
               (trackGeneratorChanges reliable gen2 old2 new2 st).1 c);
      [done..| |done].
    intros k' Hk'. unfold is_pending. apply bool_decide_ext.
    by rewrite (pending_frame reliable gen2) by (done || by left).
  - rewrite (pending_frame reliable gen1 old1 new1 _ c k g)
      by (done || by left).
    destruct (decide (g = id gen2)) as [->|H2].
    + rewrite <- !is_pending_true_iff.
      rewrite (member_determined gen2 old2 new2 old2 new2
                 (trackGeneratorChanges reliable gen1 old1 new1 st).1 st c);
        [done..| |done].
      intros k' Hk'. unfold is_pending. apply bool_decide_ext.
      by rewrite (pending_frame reliable gen1) by (done || by left).
    + by rewrite !(pending_frame reliable) by (done || by left).
Qed.

Lemma calls_for_two_generators_commute_witness :
  pending (trackGeneratorChanges reliable (mkGenerator "e2") ["A"] []
             (trackGeneratorChanges reliable (mkGenerator "e1") ["A"] []
                updated_redis).1).1 "A" DELETED
  = pending (trackGeneratorChanges reliable (mkGenerator "e1") ["A"] []
               (trackGeneratorChanges reliable (mkGenerator "e2") ["A"] []
                  updated_redis).1).1 "A" DELETED.
Proof.
  apply (calls_for_two_generators_commute (mkGenerator "e1")
           (mkGenerator "e2") ["A"] [] ["A"] [] updated_redis "A" DELETED);
    [discriminate|reflexivity].
Defined.

(** X20: on a store that never fails, a call and the reset of a collector
    that the call does not name leave the same sets whichever is made
    first. *)
Theorem call_and_reset_commute (gen : generator) (old new : list string)
    (C : string) (st : redis) (c : string) (k : jsval) :
  C ∉ old → C ∉ new →
  is_kind k = true →
  pending (trackGeneratorChanges reliable gen old new
             (resetChanges reliable C st).1).1 c k
  = pending (resetChanges reliable C
               (trackGeneratorChanges reliable gen old new st).1).1 c k.
Proof.
  intros Ho Hn Hk. rewrite pending_resetChanges by done.
  case_decide as Heq.
  - subst c. apply set_eq. intros g.
    rewrite pending_frame, pending_resetChanges, decide_True by (done || by right).
    done.
  - apply pending_determined; [done..| |done].
    intros k' Hk'. by rewrite pending_resetChanges, decide_False.
Qed.

Lemma call_and_reset_commute_witness :
  pending (trackGeneratorChanges reliable (mkGenerator "e1") ["A"] []
             (resetChanges reliable "B" updated_redis).1).1 "A" DELETED
  = pending (resetChanges reliable "B"
               (trackGeneratorChanges reliable (mkGenerator "e1") ["A"] []
                  updated_redis).1).1 "A" DELETED.
Proof.
  apply (call_and_reset_commute (mkGenerator "e1") ["A"] [] "B"
           updated_redis "A" DELETED).
  - rewrite list_elem_of_singleton. discriminate.
  - apply not_elem_of_nil.
  - reflexivity.
Defined.

(** ** From one heartbeat to the next *)

(** X21: on a store that never fails, reset the changes of a collector,
    let the collectors of a generator go from a first list through any
    number of tracked updates to a last list, and read the changes of the
    collector.  The generator is in the added array exactly when only the
    last list names the collector, in the deleted array exactly when only
    the first list does, and in the updated array exactly when both do. *)
Theorem heartbeat_reads_net_change (gen : generator) (c : string)
    (first next : list string) (nexts : list (list string)) (st : redis) :
  let st0 := (resetChanges reliable c st).1 in
  let st' := track_history gen first (next :: nexts) st0 in
  let final := List.last nexts next in
  ∃ ch, (getChangedIds reliable c st').2 = Resolved ch
    ∧ (id gen ∈ added ch ↔ (c ∉ first) ∧ c ∈ final)
    ∧ (id gen ∈ deleted ch ↔ c ∈ first ∧ (c ∉ final))
    ∧ (id gen ∈ updated ch ↔ c ∈ first ∧ c ∈ final).
Proof.
  intros st0 st' final.
  assert (∀ k, is_kind k = true → is_pending st0 c k (id gen) = false) as H0.
  { intros k Hk. apply is_pending_false_iff. subst st0.
    rewrite resetChanges_pending by done. apply not_elem_of_empty. }
  destruct (track_history_net gen c (includes first c) nexts first next st0
              false) as (Ha' & Hd' & Hu').
  { rewrite H0 by done. by destruct (includes first c). }
  { rewrite H0 by done. by destruct (includes first c). }
  { rewrite H0 by done. by destruct (includes first c). }
  fold st' final in Ha', Hd', Hu'.
  exists (snapshot (db st') c). rewrite getChangedIds_run. cbn [snd reliable].
  split; [done|]. unfold snapshot. cbn [added deleted updated].
  rewrite !elem_of_elements.
  change (smembers (db st') (getKey c ADDED)) with (pending st' c ADDED).
  change (smembers (db st') (getKey c DELETED)) with (pending st' c DELETED).
  change (smembers (db st') (getKey c UPDATED)) with (pending st' c UPDATED).
  rewrite <- !is_pending_true_iff, Ha', Hd', Hu'.
  unfold not. rewrite <- !includes_true_iff.
  destruct (includes first c), (includes final c); cbn; intuition congruence.
Qed.
